(** * Tabular transforms of [python_task_1.py] and [python_task_2.py]

    A shallow embedding of the ten pandas/networkx routines of the
    repository, together with the properties stated about them.

    Modelling conventions.
    - A float64 cell is a [number]: an exact rational, [+inf] or [NaN].
      Arithmetic is exact; binary rounding is not part of the model.
    - A [DataFrame] is an ordered sequence of labelled, typed columns over
      an index of integer labels.  A label-indexed matrix (the result of
      [pivot] or of Floyd-Warshall) is a [Matrix].
    - A routine receives a reference to the caller's table.  Each routine
      is a function from the table to [option (result * table)]: [None]
      is a raised exception, and the second component is the caller's
      table after the call, so in-place column assignment is visible.
    - [datetime.today()] is an explicit argument (the proleptic ordinal
      of the current date); [pd.to_datetime] is an argument as well. *)

From Stdlib Require Import QArith Qround Lqa.
From stdpp Require Import gmap strings list sorting.

Local Open Scope Z_scope.
Local Open Scope string_scope.
Local Open Scope list_scope.

(** ** float64 cells *)

Inductive number : Type :=
| Num (q : Q)   (* a finite value *)
| PInf          (* float('inf') *)
| NaN.          (* NaN / missing *)

Global Instance number_inhabited : Inhabited number := populate NaN.

Definition Qeq_dec' (x y : Q) : {x = y} + {x ≠ y}.
Proof. decide equality; [apply Pos.eq_dec | apply Z.eq_dec]. Defined.

Global Instance Q_eq_dec : EqDecision Q := Qeq_dec'.

Global Instance number_eq_dec : EqDecision number.
Proof. solve_decision. Defined.

(** [a + b] on floats. *)
Definition nadd (a b : number) : number :=
  match a, b with
  | NaN, _ | _, NaN => NaN
  | PInf, _ | _, PInf => PInf
  | Num x, Num y => Num (x + y)
  end.

(** [c * a] for a finite constant [c]; [0 * inf] is NaN. *)
Definition nscale (c : Q) (a : number) : number :=
  match a with
  | NaN => NaN
  | Num x => Num (c * x)
  | PInf => if Qeq_bool c 0 then NaN else if Qle_bool 0 c then PInf else NaN
  end.

(** [a <= b]; every comparison with NaN is false. *)
Definition nle (a b : number) : bool :=
  match a, b with
  | NaN, _ | _, NaN => false
  | _, PInf => true
  | PInf, Num _ => false
  | Num x, Num y => Qle_bool x y
  end.

(** [a < b] *)
Definition nlt (a b : number) : bool :=
  match a, b with
  | NaN, _ | _, NaN => false
  | PInf, _ => false
  | Num _, PInf => true
  | Num x, Num y => negb (Qle_bool y x)
  end.

(** [np.minimum(a, b)]: NaN propagates. *)
Definition nmin (a b : number) : number :=
  match a, b with
  | NaN, _ | _, NaN => NaN
  | PInf, y => y
  | x, PInf => x
  | Num x, Num y => if Qle_bool x y then Num x else Num y
  end.

Definition is_nan (a : number) : bool :=
  match a with NaN => true | _ => false end.

(** [Series.mean()]: NaN cells are skipped; the mean of nothing is NaN. *)
Definition nsum (xs : list number) : number := foldr nadd (Num 0) xs.

Definition mean (xs : list number) : number :=
  let ys := filter (λ x, is_nan x = false) xs in
  match ys with
  | [] => NaN
  | _ => nscale (1 / inject_Z (Z.of_nat (length ys))) (nsum ys)
  end.

(** ** Tables *)

Inductive weekday : Type :=
| Monday | Tuesday | Wednesday | Thursday | Friday | Saturday | Sunday.

Global Instance weekday_eq_dec : EqDecision weekday.
Proof. solve_decision. Defined.

(** [datetime.time] *)
Record time : Type := mk_time {
  hour : N; minute : N; second : N; microsecond : N
}.

Global Instance time_eq_dec : EqDecision time.
Proof. solve_decision. Defined.

Global Instance time_countable : Countable time.
Proof.
  refine (inj_countable'
            (λ t, (hour t, minute t, second t, microsecond t))
            (λ p, mk_time p.1.1.1 p.1.1.2 p.1.2 p.2) _).
  by intros [].
Defined.

(** [pd.Timestamp]: the proleptic ordinal of the date and the time of day. *)
Record Timestamp : Type := mk_stamp { ts_ordinal : Z; ts_time : time }.

Global Instance Timestamp_eq_dec : EqDecision Timestamp.
Proof. solve_decision. Defined.

Inductive column : Type :=
| IntCol (xs : list Z)                       (* int64 *)
| FloatCol (xs : list number)                (* float64 *)
| StrCol (xs : list (option string))         (* object: str, None = NaN *)
| CatCol (categories : list string) (xs : list (option string))  (* category *)
| StampCol (xs : list (option Timestamp))    (* datetime64, None = NaT *)
| TimeCol (xs : list (option time)).         (* object: datetime.time *)

Global Instance column_eq_dec : EqDecision column.
Proof. solve_decision. Defined.

Record DataFrame : Type := mk_df {
  df_index : list Z;
  df_columns : list (string * column)
}.

Global Instance DataFrame_eq_dec : EqDecision DataFrame.
Proof. solve_decision. Defined.

Definition column_names (df : DataFrame) : list string := (df_columns df).*1.

(** [df[name]]: the first column of that name; a missing name raises. *)
Fixpoint assoc {A} (name : string) (cs : list (string * A)) : option A :=
  match cs with
  | [] => None
  | (n, c) :: cs' => if decide (n = name) then Some c else assoc name cs'
  end.

Definition get_column (df : DataFrame) (name : string) : option column :=
  assoc name (df_columns df).

(** [df[name] = c]: an existing column is replaced where it stands, a new
    one is appended on the right. *)
Fixpoint assign {A} (name : string) (c : A) (cs : list (string * A))
  : list (string * A) :=
  match cs with
  | [] => [(name, c)]
  | (n, c') :: cs' =>
      if decide (n = name) then (n, c) :: cs' else (n, c') :: assign name c cs'
  end.

Definition set_column (df : DataFrame) (name : string) (c : column) : DataFrame :=
  {| df_index := df_index df; df_columns := assign name c (df_columns df) |}.

Definition int_column (df : DataFrame) (name : string) : option (list Z) :=
  match get_column df name with Some (IntCol xs) => Some xs | _ => None end.

(** A numeric column read as floats (an int64 column is upcast). *)
Definition num_column (df : DataFrame) (name : string) : option (list number) :=
  match get_column df name with
  | Some (FloatCol xs) => Some xs
  | Some (IntCol xs) => Some ((λ z, Num (inject_Z z)) <$> xs)
  | _ => None
  end.

Definition str_column (df : DataFrame) (name : string) : option (list (option string)) :=
  match get_column df name with Some (StrCol xs) => Some xs | _ => None end.

Definition cat_column (df : DataFrame) (name : string)
  : option (list string * list (option string)) :=
  match get_column df name with Some (CatCol cs xs) => Some (cs, xs) | _ => None end.

Definition stamp_column (df : DataFrame) (name : string) : option (list (option Timestamp)) :=
  match get_column df name with Some (StampCol xs) => Some xs | _ => None end.

Definition time_column (df : DataFrame) (name : string) : option (list (option time)) :=
  match get_column df name with Some (TimeCol xs) => Some xs | _ => None end.

(** [RangeIndex(n)] *)
Definition range_index (n : nat) : list Z := Z.of_nat <$> seq 0 n.

(** ** Categorizer: [get_type_count] *)

(** [pd.cut(x, bins=[-inf] + edges + [inf], labels=labels, right=False)]:
    the bin of a finite value is found by counting the interior edges at
    or below it; [+inf] lies outside the last half-open bin and NaN stays
    NaN. *)
Definition cut (edges : list Q) (labels : list string) (x : number) : option string :=
  match x with
  | Num q => labels !! length (filter (λ e, Qle_bool e q) edges)
  | PInf | NaN => None
  end.

Definition count_label (l : string) (xs : list (option string)) : nat :=
  length (filter (λ x, x = Some l) xs).

(** [Series.value_counts()] of a categorical column: one entry per
    category (also the unobserved ones), NaN dropped, largest count first. *)
Definition count_ge (a b : string * nat) : Prop := (b.2 ≤ a.2)%nat.

Global Instance count_ge_dec : RelDecision count_ge.
Proof. intros a b. unfold count_ge. apply _. Defined.

Definition value_counts (categories : list string) (xs : list (option string))
  : list (string * nat) :=
  merge_sort count_ge ((λ c, (c, count_label c xs)) <$> categories).

(** [dict(items)] keeps insertion order; a repeated key keeps its place
    and takes the later value. *)
Definition dict_of_items {A} (items : list (string * A)) : list (string * A) :=
  foldl (λ d kv, assign kv.1 kv.2 d) [] items.

(** Tuple order on [(label, count)] used by [sorted(type_count.items())]. *)
Definition item_leb (a b : string * nat) : bool :=
  match String.compare a.1 b.1 with
  | Lt => true
  | Eq => (a.2 <=? b.2)%nat
  | Gt => false
  end.

Definition item_le (a b : string * nat) : Prop := item_leb a b.

Global Instance item_le_dec : RelDecision item_le.
Proof. intros a b. unfold item_le. apply _. Defined.

Definition sorted_items (items : list (string * nat)) : list (string * nat) :=
  merge_sort item_le items.

Definition car_edges : list Q := [15%Q; 25%Q].
Definition car_labels : list string := ["low"; "medium"; "high"].

Definition get_type_count (df : DataFrame)
  : option (list (string * nat) * DataFrame) :=
  car ← num_column df "car";
  let df := set_column df "car_type"
              (CatCol car_labels (cut car_edges car_labels <$> car)) in
  car_type ← cat_column df "car_type";
  let type_count := dict_of_items (value_counts car_type.1 car_type.2) in
  let sorted_type_count := dict_of_items (sorted_items type_count) in
  Some (sorted_type_count, df).

(** The bucketing rule in words: low below 15, medium from 15 up to but
    not including 25, high from 25; a cell that is not a finite value
    gets no label. *)
Inductive bucket : number → option string → Prop :=
| bucket_low q : (q < 15)%Q → bucket (Num q) (Some "low")
| bucket_medium q : (15 <= q)%Q → (q < 25)%Q → bucket (Num q) (Some "medium")
| bucket_high q : (25 <= q)%Q → bucket (Num q) (Some "high")
| bucket_inf : bucket PInf None
| bucket_nan : bucket NaN None.

(** ** Label-indexed matrices *)

(** A frame whose index and column labels are identifiers; [m_data] holds
    the rows in index order. *)
Record Matrix : Type := mk_matrix {
  m_index : list Z;
  m_columns : list Z;
  m_data : list (list number)
}.

Global Instance Matrix_eq_dec : EqDecision Matrix.
Proof. solve_decision. Defined.

(** [Index.get_loc]: the position of a label. *)
Definition get_loc (labels : list Z) (a : Z) : option nat :=
  fst <$> list_find (λ x, x = a) labels.

(** [M.at[r, c]]; a label that is absent raises [KeyError]. *)
Definition m_at (M : Matrix) (r c : Z) : option number :=
  i ← get_loc (m_index M) r;
  j ← get_loc (m_columns M) c;
  row ← m_data M !! i;
  row !! j.

Definition m_get (M : Matrix) (r c : Z) : number := default NaN (m_at M r c).

(** The matrix over the given labels whose cell [(a, b)] is [f a b]. *)
Definition tabulate (idx cols : list Z) (f : Z → Z → number) : Matrix :=
  mk_matrix idx cols ((λ a, f a <$> cols) <$> idx).

(** [M.at[r, c] = v] for a row label [r] of the index (labels unique).
    When [c] is not a column yet the assignment falls back to
    [M.loc[r, c] = v], which appends the column [c], NaN in every other
    row. *)
Definition at_set (M : Matrix) (r c : Z) (v : number) : Matrix :=
  if decide (c ∈ m_columns M) then
    tabulate (m_index M) (m_columns M)
      (λ a b, if decide (a = r ∧ b = c) then v else m_get M a b)
  else
    tabulate (m_index M) (m_columns M ++ [c])
      (λ a b, if decide (b = c) then (if decide (a = r) then v else NaN)
              else m_get M a b).

(** [M.fillna(x)] *)
Definition fillna (x : number) (M : Matrix) : Matrix :=
  mk_matrix (m_index M) (m_columns M)
    ((λ row : list number, (λ c, if is_nan c then x else c) <$> row) <$> m_data M).

(** Sorted distinct labels, as [pivot] and [groupby] order their keys. *)
Definition sorted_unique (l : list Z) : list Z := merge_sort Z.le (remove_dups l).

(** [df.pivot(index, columns, values)] on rows [((index, column), value)]:
    a repeated (index, column) pair raises [ValueError]; a combination
    without a row is NaN. *)
Definition pivot (rows : list (Z * Z * number)) : option Matrix :=
  let keys := rows.*1 in
  if decide (NoDup keys) then
    Some (tabulate (sorted_unique keys.*1) (sorted_unique keys.*2)
            (λ a b, default NaN ((list_to_map rows : gmap (Z * Z) number) !! (a, b))))
  else None.

(** ** MatrixBuilder: [generate_car_matrix] *)

(** The loop [for index in car_matrix.index: car_matrix.at[index, index] = 0]. *)
Definition zero_diagonal (M : Matrix) (labels : list Z) : Matrix :=
  foldl (λ M index, at_set M index index (Num 0)) M labels.

Definition car_rows (df : DataFrame) : option (list (Z * Z * number)) :=
  id_1 ← int_column df "id_1";
  id_2 ← int_column df "id_2";
  car ← num_column df "car";
  Some (zip (zip id_1 id_2) car).

Definition generate_car_matrix (df : DataFrame) : option (Matrix * DataFrame) :=
  rows ← car_rows df;
  car_matrix ← fillna (Num 0) <$> pivot rows;
  Some (zero_diagonal car_matrix (m_index car_matrix), df).

(** ** MatrixUnroller: [unroll_distance_matrix] *)

Definition index_pairs (idx : list Z) : list (Z * Z) :=
  s ← idx; e ← idx; if decide (s ≠ e) then [(s, e)] else [].

(** The distance column is filled by [unrolled_df.apply(..., axis=1)].
    When there is no pair at all, [apply] on the empty frame hands back a
    copy of that two-column frame, and assigning it to the single column
    ['distance'] raises [ValueError]. *)
Definition unroll_distance_matrix (df : Matrix) : option (DataFrame * Matrix) :=
  let pairs := index_pairs (m_index df) in
  match pairs with
  | [] => None
  | _ =>
      distance ← mapM (λ p, m_at df p.1 p.2) pairs;
      Some (mk_df (range_index (length pairs))
              [("id_start", IntCol pairs.*1); ("id_end", IntCol pairs.*2);
               ("distance", FloatCol distance)], df)
  end.

(** [df.rename(columns=...)] for a list of (old, new) names. *)
Definition rename_columns (renames : list (string * string)) (df : DataFrame) : DataFrame :=
  mk_df (df_index df)
    ((λ nc, (default nc.1 (assoc nc.1 renames), nc.2)) <$> df_columns df).

(** The unrolled table read as input of the matrix builder. *)
Definition as_car_table : DataFrame → DataFrame :=
  rename_columns [("id_start", "id_1"); ("id_end", "id_2"); ("distance", "car")].

(** Every labelled cell of the matrix is stored. *)
Definition m_total (M : Matrix) : Prop :=
  ∀ a b, a ∈ m_index M → b ∈ m_columns M → is_Some (m_at M a b).

(** The cell that [pivot(...).fillna(0)] holds for the combination [(a, b)]. *)
Definition car_cell (rows : list (Z * Z * number)) (a b : Z) : number :=
  match (list_to_map rows : gmap (Z * Z) number) !! (a, b) with
  | Some (Num q) => Num q
  | Some PInf => PInf
  | Some NaN | None => Num 0
  end.

(** The stored rows match the labels: one row per index label, one cell
    per column label. *)
Definition m_shape (M : Matrix) : Prop :=
  length (m_data M) = length (m_index M)
  ∧ Forall (λ row, length row = length (m_columns M)) (m_data M).

Definition m_square (M : Matrix) : Prop :=
  m_shape M ∧ length (m_index M) = length (m_columns M).

(** The rows [(id_start, id_end, distance)] of an edge table. *)
Definition edge_rows (df : DataFrame) : option (list (Z * Z * number)) :=
  id_start ← int_column df "id_start";
  id_end ← int_column df "id_end";
  distance ← num_column df "distance";
  Some (zip (zip id_start id_end) distance).

(** ** DistanceGraphResolver: [calculate_distance_matrix] *)

(** [nx.DiGraph]: the nodes in insertion order and the weight attribute
    of every directed edge. *)
Record DiGraph : Type := mk_graph {
  g_nodes : list Z;
  g_adj : gmap (Z * Z) number
}.

Definition empty_graph : DiGraph := mk_graph [] ∅.

Definition add_node (g : DiGraph) (u : Z) : DiGraph :=
  if decide (u ∈ g_nodes g) then g else mk_graph (g_nodes g ++ [u]) (g_adj g).

(** [g.add_edge(u, v, weight=w)]: both ends become nodes, and the weight
    of an edge that is already there is overwritten. *)
Definition add_edge (g : DiGraph) (u v : Z) (w : number) : DiGraph :=
  let g := add_node (add_node g u) v in
  mk_graph (g_nodes g) (<[(u, v) := w]> (g_adj g)).

(** [nx.to_numpy_array(g, weight='weight', nonedge=np.inf)] *)
Definition to_numpy_array (g : DiGraph) (nonedge : number) : list (list number) :=
  (λ u, (λ v, default nonedge (g_adj g !! (u, v))) <$> g_nodes g) <$> g_nodes g.

(** [np.fill_diagonal(A, x)] *)
Definition fill_diagonal (A : list (list number)) (x : number) : list (list number) :=
  imap (λ i row, <[i := x]> row) A.

(** [A[r][c]] *)
Definition cell (A : list (list number)) (r c : nat) : number :=
  default NaN (A !! r ≫= λ row, row !! c).

(** One round of the loop:
    [A = np.minimum(A, A[i, :][np.newaxis, :] + A[:, i][:, np.newaxis])].
    Entry [(r, c)] of the broadcast sum is [A[i][c] + A[r][i]]. *)
Definition relax (A : list (list number)) (i : nat) : list (list number) :=
  let row_i := default [] (A !! i) in
  let col_i := (λ row, default NaN (row !! i)) <$> A in
  zip_with (λ row a_ri, zip_with (λ a_rc a_ic, nmin a_rc (nadd a_ic a_ri)) row row_i)
           A col_i.

(** [nx.floyd_warshall_numpy(g, weight='weight')] *)
Definition floyd_warshall_numpy (g : DiGraph) : list (list number) :=
  let A := fill_diagonal (to_numpy_array g PInf) (Num 0) in
  foldl relax A (seq 0 (length A)).

Definition build_graph (rows : list (Z * Z * number)) : DiGraph :=
  foldl (λ g row,
           let g := add_edge g row.1.1 row.1.2 row.2 in
           add_edge g row.1.2 row.1.1 row.2)
        empty_graph rows.

Definition calculate_distance_matrix (df : DataFrame) : option (Matrix * DataFrame) :=
  rows ← edge_rows df;
  let g := build_graph rows in
  let distance_matrix := floyd_warshall_numpy g in
  Some (mk_matrix (g_nodes g) (g_nodes g) distance_matrix, df).

(** *** Shortest paths in the undirected graph of an edge table *)

(** The weight of the connection between [u] and [v]: that of the last
    row joining them, in either direction. *)
Definition undirected_weight (rows : list (Z * Z * number)) (u v : Z) : option number :=
  snd <$> last (filter (λ row, row.1 = (u, v) ∨ row.1 = (v, u)) rows).

Definition connection (rows : list (Z * Z * number)) (u v : Z) : option Q :=
  match undirected_weight rows u v with
  | Some (Num q) => Some q
  | _ => None
  end.

(** The total weight of the walk [u, via..., v] (at least one edge), if
    all its edges exist. *)
Fixpoint walk_weight (W : Z → Z → option Q) (u : Z) (via : list Z) (v : Z) : option Q :=
  match via with
  | [] => W u v
  | x :: via' => w ← W u x; d ← walk_weight W x via' v; Some (w + d)%Q
  end.

(** [v] can be reached from [u] at total weight [d]: by staying put, or
    along some walk. *)
Definition reach (W : Z → Z → option Q) (u v : Z) (d : Q) : Prop :=
  (u = v ∧ (d == 0)%Q) ∨ ∃ via d', walk_weight W u via v = Some d' ∧ (d' == d)%Q.

(** [x] is the shortest-path distance from [u] to [v]: the least weight
    at which [v] is reached, or [+inf] when it cannot be reached. *)
Definition shortest (W : Z → Z → option Q) (u v : Z) (x : number) : Prop :=
  match x with
  | Num d => reach W u v d ∧ ∀ d', reach W u v d' → (d <= d')%Q
  | PInf => ∀ d', ¬ reach W u v d'
  | NaN => False
  end.

(** The identifiers an edge table mentions, as start or as end. *)
Definition endpoints (rows : list (Z * Z * number)) : list Z :=
  rows ≫= λ row, [row.1.1; row.1.2].

(** An [n] by [n] array. *)
Definition square (n : nat) (A : list (list number)) : Prop :=
  length A = n ∧ Forall (λ row, length row = n) A.

(** ** Boolean-mask selection: [df[mask]] *)

Definition mask_list {A} (mask : list bool) (l : list A) : list A :=
  (filter (λ p : bool * A, p.1) (zip mask l)).*2.

Definition column_select (mask : list bool) (c : column) : column :=
  match c with
  | IntCol xs => IntCol (mask_list mask xs)
  | FloatCol xs => FloatCol (mask_list mask xs)
  | StrCol xs => StrCol (mask_list mask xs)
  | CatCol cs xs => CatCol cs (mask_list mask xs)
  | StampCol xs => StampCol (mask_list mask xs)
  | TimeCol xs => TimeCol (mask_list mask xs)
  end.

Definition select_rows (mask : list bool) (df : DataFrame) : DataFrame :=
  mk_df (mask_list mask (df_index df))
        ((λ nc, (nc.1, column_select mask nc.2)) <$> df_columns df).

Definition column_length (c : column) : nat :=
  match c with
  | IntCol xs => length xs
  | FloatCol xs => length xs
  | StrCol xs => length xs
  | CatCol _ xs => length xs
  | StampCol xs => length xs
  | TimeCol xs => length xs
  end.

(** Every column has one cell per index label. *)
Definition df_wf (df : DataFrame) : Prop :=
  Forall (λ nc, column_length nc.2 = length (df_index df)) (df_columns df).

(** ** ToleranceFilter: [find_ids_within_ten_percentage_threshold] *)

Definition find_ids_within_ten_percentage_threshold (df : DataFrame) (reference_id : Z)
  : option (DataFrame * DataFrame) :=
  id_start ← int_column df "id_start";
  distance ← num_column df "distance";
  let average_distance :=
    mean (mask_list ((λ s, bool_decide (s = reference_id)) <$> id_start) distance) in
  let lower_threshold := nscale (9 # 10) average_distance in
  let upper_threshold := nscale (11 # 10) average_distance in
  let mask :=
    zip_with (λ s d, bool_decide (s ≠ reference_id)
                     && nle lower_threshold d && nle d upper_threshold)
             id_start distance in
  Some (select_rows mask df, df).

(** The sum of a list of rationals. *)
Definition Qsum (l : list Q) : Q := foldr Qplus 0%Q l.

(** The finite distances of the rows that start at [reference_id]. *)
Definition reference_distances (rows : list (Z * Z * number)) (reference_id : Z) : list Q :=
  rows ≫= λ row, match row.2 with
                 | Num q => if decide (row.1.1 = reference_id) then [q] else []
                 | _ => []
                 end.

(** ** CompletenessChecker: [time_check] *)

Definition day_names : list string :=
  ["Monday"; "Tuesday"; "Wednesday"; "Thursday"; "Friday"; "Saturday"; "Sunday"].

Definition weekday_name (d : weekday) : string :=
  match d with
  | Monday => "Monday" | Tuesday => "Tuesday" | Wednesday => "Wednesday"
  | Thursday => "Thursday" | Friday => "Friday" | Saturday => "Saturday"
  | Sunday => "Sunday"
  end.

(** [date.weekday()]: ordinal 1 (0001-01-01) is a Monday. *)
Definition weekday_of_ordinal (o : Z) : weekday :=
  match (o + 6) `mod` 7 with
  | 0 => Monday | 1 => Tuesday | 2 => Wednesday | 3 => Thursday
  | 4 => Friday | 5 => Saturday | _ => Sunday
  end.

(** [Timestamp.day_name()] and [strftime('%A')] *)
Definition day_name (ts : Timestamp) : string :=
  weekday_name (weekday_of_ordinal (ts_ordinal ts)).

(** [pd.date_range('00:00:00', '23:59:59', freq='1S').time]: every whole
    second of the day, 00:00:00 first and 23:59:59 last. *)
Definition all_day_times : list time :=
  h ← seq 0 24; m ← seq 0 60; s ← seq 0 60;
  [mk_time (N.of_nat h) (N.of_nat m) (N.of_nat s) 0].

(** [a + ' ' + b] on object columns; NaN propagates. *)
Definition join_day_time (a b : option string) : option string :=
  a ← a; b ← b; Some (String.append a (String.append " " b)).

(** Group keys in the order [groupby] yields them. *)
Definition pair_le (a b : Z * Z) : Prop :=
  (a.1 < b.1)%Z ∨ (a.1 = b.1 ∧ (a.2 ≤ b.2)%Z).

Global Instance pair_le_dec : RelDecision pair_le.
Proof. intros a b. unfold pair_le. apply _. Defined.

Definition sorted_keys (keys : list (Z * Z)) : list (Z * Z) :=
  merge_sort pair_le (remove_dups keys).

(** The rows of the group of [key]. *)
Definition group_of (keys : list (Z * Z)) (key : Z * Z) (df : DataFrame) : DataFrame :=
  select_rows ((λ k, bool_decide (k = key)) <$> keys) df.

(** [set(xs) == set(ys)]: each holds every element of the other. *)
Definition set_eqb `{EqDecision A} (xs ys : list A) : bool :=
  bool_decide (xs ⊆ ys) && bool_decide (ys ⊆ xs).

Definition check_timestamp_completeness (group : DataFrame) : option bool :=
  start_day ← str_column group "start_day";
  start_time ← time_column group "start_time";
  let days_present := set_eqb start_day (Some <$> day_names) in
  let time_ranges_present := set_eqb start_time (Some <$> all_day_times) in
  Some (days_present && time_ranges_present).

(** [pd.to_datetime(..., errors='coerce')] is the argument [to_datetime]:
    a string it cannot parse, or NaN, gives NaT. *)
Definition parse_column (to_datetime : string → option Timestamp)
    (day time : list (option string)) : list (option Timestamp) :=
  zip_with (λ a b, join_day_time a b ≫= to_datetime) day time.

(** [.dt.day_name()] and [.dt.time] of a datetime column; NaT gives NaN. *)
Definition stamp_days (stamps : list (option Timestamp)) : list (option string) :=
  (λ ts : option Timestamp, day_name <$> ts) <$> stamps.

Definition stamp_times (stamps : list (option Timestamp)) : list (option time) :=
  (λ ts : option Timestamp, ts_time <$> ts) <$> stamps.

(** [df.groupby(['id', 'id_2']).apply(check_timestamp_completeness)]:
    one entry per key, keys in sorted order. *)
Definition apply_groups (keys : list (Z * Z)) (df : DataFrame)
    (f : DataFrame → option bool) : option (list (Z * Z * bool)) :=
  mapM (λ key : Z * Z, b ← f (group_of keys key df); Some (key, b)) (sorted_keys keys).

Definition time_check (to_datetime : string → option Timestamp) (df : DataFrame)
  : option (list (Z * Z * bool) * DataFrame) :=
  startDay ← str_column df "startDay";
  startTime ← str_column df "startTime";
  let df := set_column df "start_timestamp"
              (StampCol (parse_column to_datetime startDay startTime)) in
  endDay ← str_column df "endDay";
  endTime ← str_column df "endTime";
  let df := set_column df "end_timestamp"
              (StampCol (parse_column to_datetime endDay endTime)) in
  start_timestamp ← stamp_column df "start_timestamp";
  let df := set_column df "start_day" (StrCol (stamp_days start_timestamp)) in
  start_timestamp ← stamp_column df "start_timestamp";
  let df := set_column df "start_time" (TimeCol (stamp_times start_timestamp)) in
  id ← int_column df "id";
  id_2 ← int_column df "id_2";
  completeness_series ← apply_groups (zip id id_2) df check_timestamp_completeness;
  Some (completeness_series, df).

(** The parsed start timestamps of the rows of one group. *)
Definition group_stamps (keys : list (Z * Z)) (stamps : list (option Timestamp))
    (key : Z * Z) : list (option Timestamp) :=
  (filter (λ p, p.1 = key) (zip keys stamps)).*2.

(** ** TimeWindowExpander: [calculate_time_based_toll_rates] *)

(** One dict appended to [new_columns_data], i.e. one row of [result_df]. *)
Record WindowRow : Type := mk_window_row {
  w_id_start : Z;
  w_id_end : Z;
  w_start_day : string;
  w_start_time : time;
  w_end_day : string;
  w_end_time : time;
  w_distance : number
}.

Global Instance WindowRow_eq_dec : EqDecision WindowRow.
Proof. solve_decision. Defined.

Definition weekday_discounts : list (time * time * Q) :=
  [(mk_time 0 0 0 0, mk_time 10 0 0 0, 8 # 10);
   (mk_time 10 0 0 0, mk_time 18 0 0 0, 12 # 10);
   (mk_time 18 0 0 0, mk_time 23 59 59 0, 8 # 10)]%Q.

Definition weekend_discount : Q := 7 # 10.

(** The windows the loop runs through for the day offset [day]. *)
Definition day_windows (day : Z) : list (time * time * Q) :=
  if decide (day < 5) then weekday_discounts
  else [(mk_time 0 0 0 0, mk_time 23 59 59 0, weekend_discount)].

(** [(datetime.combine(datetime.today(), t) + timedelta(days=day)).strftime('%A')]
    with [today] the proleptic ordinal of the current date. *)
Definition offset_day_name (today day : Z) : string :=
  weekday_name (weekday_of_ordinal (today + day)).

(** The rows appended for one group. *)
Definition group_window_rows (today : Z) (group_df : DataFrame) : option (list WindowRow) :=
  id_start ← int_column group_df "id_start";
  id_end ← int_column group_df "id_end";
  distance ← num_column group_df "distance";
  first_start ← head id_start;
  first_end ← head id_end;
  Some (day ← seqZ 0 7;
        w ← day_windows day;
        [mk_window_row first_start first_end
           (offset_day_name today day) w.1.1
           (offset_day_name today day) w.1.2
           (nscale w.2 (mean distance))]).

Definition calculate_time_based_toll_rates (today : Z) (input_df : DataFrame)
  : option (list WindowRow * DataFrame) :=
  id_start ← int_column input_df "id_start";
  id_end ← int_column input_df "id_end";
  let keys := zip id_start id_end in
  new_columns_data ←
    mapM (λ key, group_window_rows today (group_of keys key input_df)) (sorted_keys keys);
  Some (concat new_columns_data, input_df).

(** ** ThresholdFilter: [get_bus_indexes] and [filter_routes] *)

Definition get_bus_indexes (df : DataFrame) : option (list Z * DataFrame) :=
  bus ← num_column df "bus";
  let mean_bus := mean bus in
  let mask := (λ v, nlt (nscale 2 mean_bus) v) <$> bus in
  let bus_indexes := mask_list mask (df_index df) in
  Some (merge_sort Z.le bus_indexes, df).

(** [df.groupby(key)[value].mean()]: the mean of every group, keys sorted. *)
Definition groupby_mean (keys : list Z) (values : list number) : list (Z * number) :=
  (λ key, (key, mean (mask_list ((λ k, bool_decide (k = key)) <$> keys) values)))
    <$> sorted_unique keys.

Definition filter_routes (df : DataFrame) : option (list Z * DataFrame) :=
  route ← int_column df "route";
  truck ← num_column df "truck";
  let route_avg_truck := groupby_mean route truck in
  let selected_routes := (filter (λ kv, nlt (Num 7) kv.2) route_avg_truck).*1 in
  Some (selected_routes, df).

(** ** MatrixTransformer: [multiply_matrix] *)

(** Round to the nearest integer, ties to the even one ([np.rint]). *)
Definition round_half_even (q : Q) : Z :=
  let f := Qfloor q in
  let r := (q - inject_Z f)%Q in
  if Qle_bool r (1 # 2)
  then (if Qeq_bool r (1 # 2) then (if Z.even f then f else f + 1) else f)
  else f + 1.

(** [round(x, 1)] *)
Definition round1 (x : number) : number :=
  match x with
  | Num q => Num (inject_Z (round_half_even (q * 10)) / 10)
  | other => other
  end.

(** [lambda x: x * 0.75 if x > 20 else x * 1.25] *)
Definition rescale (x : number) : number :=
  if nlt (Num 20) x then nscale (75 # 100) x else nscale (125 # 100) x.

Definition multiply_matrix (matrix : Matrix) : option (Matrix * Matrix) :=
  let modified_matrix :=
    mk_matrix (m_index matrix) (m_columns matrix)
      ((λ row : list number, rescale <$> row) <$> m_data matrix) in
  let modified_matrix :=
    mk_matrix (m_index modified_matrix) (m_columns modified_matrix)
      ((λ row : list number, round1 <$> row) <$> m_data modified_matrix) in
  Some (modified_matrix, matrix).

(** ** TollCalculator: [calculate_toll_rate] *)

Definition rate_coefficients : list (string * Q) :=
  [("moto", 8 # 10); ("car", 12 # 10); ("rv", 15 # 10); ("bus", 22 # 10);
   ("truck", 36 # 10)]%Q.

(** [df[vehicle_type] = df['distance'] * rate_coefficient] *)
Definition assign_rate (df : DataFrame) (rate : string * Q) : option DataFrame :=
  distance ← num_column df "distance";
  Some (set_column df rate.1 (FloatCol (nscale rate.2 <$> distance))).

(** The function returns the table it was given, after the assignments. *)
Definition calculate_toll_rate (df : DataFrame) : option (DataFrame * DataFrame) :=
  df ← foldl (λ acc rate, df ← acc; assign_rate df rate) (Some df) rate_coefficients;
  Some (df, df).

(** ** What a call leaves of the caller's table *)

(** [df'] is [df] up to assignments to the columns [names]: the index is
    the same and every column of another name is what it was. *)
Definition only_assigns (names : list string) (df df' : DataFrame) : Prop :=
  df_index df' = df_index df
  ∧ ∀ name, name ∉ names → get_column df' name = get_column df name.

(** ** Auxiliary notions for further properties *)

(** The rows the two inner loops of [calculate_time_based_toll_rates]
    append for a pair [(first_start, first_end)] whose mean distance is
    [average]. *)
Definition window_rows (today first_start first_end : Z) (average : number)
  : list WindowRow :=
  day ← seqZ 0 7;
  w ← day_windows day;
  [mk_window_row first_start first_end
     (offset_day_name today day) w.1.1
     (offset_day_name today day) w.1.2
     (nscale w.2 average)].

(** The cells of [values] on the rows whose key is [key]. *)
Definition group_values {A} (keys : list (Z * Z)) (values : list A) (key : Z * Z) : list A :=
  (filter (λ p, p.1 = key) (zip keys values)).*2.

(** The week as the discount rule reads it: three sub-windows on each of
    Monday to Friday, one whole-day window on Saturday and on Sunday. *)
Definition intended_week : list (weekday * (time * time * Q)) :=
  (d ← [Monday; Tuesday; Wednesday; Thursday; Friday];
   w ← weekday_discounts; [(d, w)])
  ++ [(Saturday, (mk_time 0 0 0 0, mk_time 23 59 59 0, weekend_discount));
      (Sunday, (mk_time 0 0 0 0, mk_time 23 59 59 0, weekend_discount))].

(** A cell holding a finite value. *)
Definition is_finite (x : number) : bool :=
  match x with Num _ => true | _ => false end.

(** The distinct elements of a list in order of first appearance. *)
Definition first_seen (l : list Z) : list Z :=
  foldl (λ acc x, if decide (x ∈ acc) then acc else acc ++ [x]) [] l.

(** ** Concrete tables used as examples *)

Definition car_table_example : DataFrame :=
  mk_df (range_index 4) [("car", IntCol [5; 15; 25; 30])].

(** Identifier 2 occurs only as [id_2], identifiers 1 and 3 only as [id_1]. *)
Definition one_sided_table : DataFrame :=
  mk_df (range_index 2)
    [("id_1", IntCol [1; 3]); ("id_2", IntCol [2; 2]); ("car", IntCol [5; 6])].

Definition two_way_table : DataFrame :=
  mk_df (range_index 3)
    [("id_1", IntCol [1; 2; 3]); ("id_2", IntCol [2; 3; 1]); ("car", IntCol [5; 6; 7])].

(** Identifier 3 is the end of a row but never a start. *)
Definition dangling_end_table : DataFrame :=
  mk_df (range_index 3)
    [("id_1", IntCol [1; 2; 1]); ("id_2", IntCol [2; 1; 3]); ("car", IntCol [5; 7; 9])].

(** The edges (A, B, 5), (B, C, 5). *)
Definition chain_table (A B C : Z) : DataFrame :=
  mk_df (range_index 2)
    [("id_start", IntCol [A; B]); ("id_end", IntCol [B; C]);
     ("distance", FloatCol [Num 5; Num 5])].

(** One edge of negative length. *)
Definition negative_edge_table : DataFrame :=
  mk_df (range_index 1)
    [("id_start", IntCol [1]); ("id_end", IntCol [2]); ("distance", FloatCol [Num (-1)])].

(** Reference 1 has distances 9 and 11 (average 10); the other rows start
    at 2 and 3 with distances 10.5 and 12. *)
Definition tolerance_table : DataFrame :=
  mk_df (range_index 4)
    [("id_start", IntCol [1; 1; 2; 3]); ("id_end", IntCol [2; 3; 1; 1]);
     ("distance", FloatCol [Num 9; Num 11; Num (21 # 2); Num 12])].

(** A parser for strings of the form used in the examples below: it knows
    two timestamps and rejects everything else. *)
Definition sample_to_datetime (s : string) : option Timestamp :=
  if decide (s = "Monday 00:00:00") then Some (mk_stamp 1 (mk_time 0 0 0 0))
  else if decide (s = "Tuesday 00:00:01") then Some (mk_stamp 2 (mk_time 0 0 1 0))
  else None.

Definition interval_table : DataFrame :=
  mk_df (range_index 3)
    [("id", IntCol [7; 7; 8]); ("id_2", IntCol [1; 1; -1]);
     ("startDay", StrCol [Some "Monday"; Some "Tuesday"; Some "Monday"]);
     ("startTime", StrCol [Some "00:00:00"; Some "00:00:01"; Some "00:00:00"]);
     ("endDay", StrCol [Some "Monday"; Some "Tuesday"; Some "Friday"]);
     ("endTime", StrCol [Some "10:00:00"; Some "23:59:59"; Some "xx"])].

(** One pair (1, 2) with distance 10. *)
Definition single_pair_table : DataFrame :=
  mk_df (range_index 1)
    [("id_start", IntCol [1]); ("id_end", IntCol [2]); ("distance", FloatCol [Num 10])].

(** Proleptic ordinals of 2023-10-30 (a Monday) and 2023-11-01 (a Wednesday). *)
Definition a_monday : Z := 738823.
Definition a_wednesday : Z := 738825.

Definition bus_table : DataFrame :=
  mk_df (range_index 4) [("bus", IntCol [10; 10; 10; 50])].

Definition route_table : DataFrame :=
  mk_df (range_index 4)
    [("route", IntCol [2; 1; 2; 1]); ("truck", IntCol [8; 3; 10; 5])].

Definition small_matrix : Matrix :=
  mk_matrix [1; 2] [1; 2] [[Num 25; Num 10]; [NaN; PInf]].

(** * Properties *)

Lemma assoc_assign_eq {A} name (c : A) cs : assoc name (assign name c cs) = Some c.
Proof.
  induction cs as [|[n c'] cs IH]; simpl.
  - by rewrite decide_True.
  - destruct (decide (n = name)) as [->|Hne]; simpl.
    + by rewrite decide_True.
    + by rewrite decide_False.
Qed.

Lemma assoc_assign_ne {A} name name' (c : A) cs :
  name ≠ name' → assoc name' (assign name c cs) = assoc name' cs.
Proof.
  intros Hne. induction cs as [|[n c'] cs IH]; simpl.
  - by rewrite decide_False.
  - destruct (decide (n = name)) as [->|Hn]; simpl.
    + by rewrite !decide_False.
    + destruct (decide (n = name')); auto.
Qed.
Lemma Permutation_three {A} (a b c : A) l :
  l ≡ₚ [a; b; c] →
  l = [a;b;c] ∨ l = [a;c;b] ∨ l = [b;a;c] ∨ l = [b;c;a] ∨ l = [c;a;b] ∨ l = [c;b;a].
Proof.
  intros H. symmetry in H.
  apply Permutation_cons_inv_l in H as (l1 & l2 & -> & H).
  apply Permutation_cons_inv_l in H as (l3 & l4 & E & H).
  apply Permutation_singleton_l in H.
  destruct l3 as [|x [|y l3]], l4 as [|z [|w l4]]; simplify_eq/=;
  destruct l1 as [|x1 [|y1 [|z1 l1]]]; simplify_eq/=; naive_solver.
Qed.
Lemma sorted_items_labels l m h items :
  items ≡ₚ [("low", l); ("medium", m); ("high", h)] →
  dict_of_items (sorted_items (dict_of_items items)) = [("high", h); ("low", l); ("medium", m)].
Proof.
  intros H. apply Permutation_three in H.
  destruct H as [->|[->|[->|[->|[->| ->]]]]]; reflexivity.
Qed.

Lemma get_type_count_eq df car :
  num_column df "car" = Some car →
  let tys := cut car_edges car_labels <$> car in
  get_type_count df =
    Some ([("high", count_label "high" tys); ("low", count_label "low" tys);
           ("medium", count_label "medium" tys)],
          set_column df "car_type" (CatCol car_labels tys)).
Proof.
  intros Hcar tys. unfold get_type_count. rewrite Hcar. simpl.
  unfold cat_column, get_column, set_column. simpl.
  rewrite assoc_assign_eq. simpl. do 2 f_equal.
  apply sorted_items_labels. unfold value_counts.
  apply merge_sort_Permutation.
Qed.
Lemma Qle_bool_false x y : Qle_bool x y = false → (y < x)%Q.
Proof.
  intros H. apply Qnot_le_lt. intros Hle. apply Qle_bool_iff in Hle. congruence.
Qed.

Lemma cut_bucket v : bucket v (cut car_edges car_labels v).
Proof.
  destruct v as [q| |]; simpl; try constructor.
  unfold car_edges. rewrite !filter_cons, filter_nil.
  destruct (Qle_bool 15 q) eqn:H15, (Qle_bool 25 q) eqn:H25; simpl.
  - apply bucket_high. by apply Qle_bool_iff.
  - apply bucket_medium; [by apply Qle_bool_iff | by apply Qle_bool_false].
  - apply Qle_bool_iff in H25. apply Qle_bool_false in H15.
    exfalso. lra.
  - apply bucket_low. by apply Qle_bool_false.
Qed.



Lemma count_label_none l (xs : list (option string)) :
  Some l ∉ xs → count_label l xs = 0%nat.
Proof.
  unfold count_label. induction xs as [|x xs IH]; intros Hn; [done|].
  rewrite filter_cons. apply not_elem_of_cons in Hn as [Hx Hxs].
  rewrite decide_False by congruence. auto.
Qed.

(** C10: whatever the car values are, the mapping returned by
    [get_type_count] has exactly the keys high, low and medium; a bucket
    that matches no row is present with count 0. *)
Theorem get_type_count_three_keys df car :
  num_column df "car" = Some car →
  ∃ d df', get_type_count df = Some (d, df')
    ∧ d.*1 = ["high"; "low"; "medium"]
    ∧ ∀ l, l ∈ ["high"; "low"; "medium"] →
        (∀ v, v ∈ car → ¬ bucket v (Some l)) → assoc l d = Some 0%nat.
Proof.
  intros Hcar. eexists _, _. split; [by apply get_type_count_eq|].
  split; [reflexivity|].
  intros l Hl Hnone.
  assert (count_label l (cut car_edges car_labels <$> car) = 0%nat) as Hz.
  { apply count_label_none. intros Hin.
    apply list_elem_of_fmap in Hin as (v & Hv & Hin).
    apply (Hnone v Hin). rewrite Hv. apply cut_bucket. }
  repeat (apply elem_of_cons in Hl as [->|Hl]); [| | |by apply elem_of_nil in Hl];
    simpl; by rewrite Hz.
Qed.

Lemma get_type_count_three_keys_witness :
  ∃ d df', get_type_count (mk_df (range_index 2) [("car", FloatCol [Num 5; NaN])])
             = Some (d, df')
    ∧ d.*1 = ["high"; "low"; "medium"]
    ∧ ∀ l, l ∈ ["high"; "low"; "medium"] →
        (∀ v, v ∈ [Num 5; NaN] → ¬ bucket v (Some l)) → assoc l d = Some 0%nat.
Proof.
  apply (get_type_count_three_keys
           (mk_df (range_index 2) [("car", FloatCol [Num 5; NaN])]) [Num 5; NaN]).
  reflexivity.
Defined.
Lemma get_loc_Some (l : list Z) a i :
  get_loc l a = Some i → l !! i = Some a.
Proof.
  unfold get_loc. intros H. apply fmap_Some in H as ([j x] & Hf & ->).
  apply list_find_Some in Hf as (Hl & -> & _). done.
Qed.

Lemma get_loc_elem_of (l : list Z) a :
  a ∈ l → ∃ i, get_loc l a = Some i.
Proof.
  intros Hin. unfold get_loc.
  destruct (list_find_elem_of (λ x, x = a) l a Hin eq_refl) as [[i x] Hf].
  exists i. by rewrite Hf.
Qed.

Lemma get_loc_None (l : list Z) a : a ∉ l → get_loc l a = None.
Proof.
  intros Hn. unfold get_loc.
  destruct (list_find (λ x, x = a) l) as [[i x]|] eqn:Hf; [|done].
  apply list_find_Some in Hf as (Hl & -> & _).
  exfalso. apply Hn. by eapply list_elem_of_lookup_2.
Qed.

Lemma m_at_tabulate idx cols f a b :
  a ∈ idx → b ∈ cols → m_at (tabulate idx cols f) a b = Some (f a b).
Proof.
  intros Ha Hb. unfold m_at, tabulate. simpl.
  destruct (get_loc_elem_of _ _ Ha) as [i Hi]. rewrite Hi. simpl.
  destruct (get_loc_elem_of _ _ Hb) as [j Hj]. rewrite Hj. simpl.
  apply get_loc_Some in Hi, Hj.
  rewrite list_lookup_fmap, Hi. simpl.
  by rewrite list_lookup_fmap, Hj.
Qed.

Lemma m_at_is_Some M a b : is_Some (m_at M a b) → a ∈ m_index M ∧ b ∈ m_columns M.
Proof.
  unfold m_at. intros [x H].
  destruct (decide (a ∈ m_index M)) as [Ha|Ha]; [|by rewrite (get_loc_None _ _ Ha) in H].
  destruct (decide (b ∈ m_columns M)) as [Hb|Hb]; [done|].
  rewrite (get_loc_None _ _ Hb) in H. by destruct (get_loc (m_index M) a).
Qed.

Lemma m_at_fillna x M a b :
  m_at (fillna x M) a b = (λ c, if is_nan c then x else c) <$> m_at M a b.
Proof.
  unfold m_at, fillna. simpl.
  destruct (get_loc (m_index M) a) as [i|]; [simpl|done].
  destruct (get_loc (m_columns M) b) as [j|]; [simpl|done].
  rewrite list_lookup_fmap. destruct (m_data M !! i) as [row|]; [simpl|done].
  by rewrite list_lookup_fmap.
Qed.

Lemma at_set_index M r c v : m_index (at_set M r c v) = m_index M.
Proof. unfold at_set. by case_decide. Qed.

Lemma at_set_columns M r c v :
  m_columns (at_set M r c v) =
    if decide (c ∈ m_columns M) then m_columns M else m_columns M ++ [c].
Proof. unfold at_set. by case_decide. Qed.

Lemma m_at_at_set M r c v a b :
  a ∈ m_index M → b ∈ m_columns (at_set M r c v) →
  m_at (at_set M r c v) a b =
    Some (if decide (a = r ∧ b = c) then v
          else if decide (b ∈ m_columns M) then m_get M a b else NaN).
Proof.
  intros Ha Hb. rewrite at_set_columns in Hb. unfold at_set.
  destruct (decide (c ∈ m_columns M)) as [Hc|Hc].
  - rewrite m_at_tabulate by done. by rewrite (decide_True (P := b ∈ _)).
  - rewrite m_at_tabulate by done. f_equal.
    destruct (decide (b = c)) as [->|Hbc].
    + rewrite (decide_False (P := c ∈ _)) by done.
      destruct (decide (a = r)) as [->|Har].
      * by rewrite decide_True.
      * rewrite decide_False; [done|]. by intros [? _].
    + rewrite decide_False by (by intros [_ ?]).
      apply elem_of_app in Hb as [Hb|Hb].
      * by rewrite decide_True.
      * apply list_elem_of_singleton in Hb. done.
Qed.
Lemma filter_ext_elem {A} (P Q : A → Prop)
    `{!∀ x, Decision (P x), !∀ x, Decision (Q x)} (l : list A) :
  (∀ x, x ∈ l → P x ↔ Q x) → filter P l = filter Q l.
Proof.
  induction l as [|x l IH]; intros Hext; [done|].
  rewrite !filter_cons. rewrite IH by (intros y Hy; apply Hext; by right).
  assert (P x ↔ Q x) as Hx by (apply Hext; by left).
  destruct (decide (P x)) as [Hp|Hp], (decide (Q x)) as [Hq|Hq]; tauto.
Qed.

Lemma m_total_tabulate idx cols f : m_total (tabulate idx cols f).
Proof. intros a b Ha Hb. rewrite m_at_tabulate by done. eauto. Qed.

Lemma m_total_at_set M r c v : m_total (at_set M r c v).
Proof. unfold at_set. case_decide; apply m_total_tabulate. Qed.

Lemma m_total_fillna x M : m_total M → m_total (fillna x M).
Proof.
  intros H a b Ha Hb. rewrite m_at_fillna.
  destruct (H a b Ha Hb) as [y ->]. simpl. eauto.
Qed.

Lemma m_get_total M a b :
  m_total M → a ∈ m_index M → b ∈ m_columns M → m_at M a b = Some (m_get M a b).
Proof. intros H Ha Hb. unfold m_get. by destruct (H a b Ha Hb) as [y ->]. Qed.

Lemma zero_diagonal_index labels : ∀ M, m_index (zero_diagonal M labels) = m_index M.
Proof.
  induction labels as [|p P IH]; intros M; [done|].
  unfold zero_diagonal in *. simpl. by rewrite IH, at_set_index.
Qed.

Lemma zero_diagonal_total labels : ∀ M, m_total M → m_total (zero_diagonal M labels).
Proof.
  induction labels as [|p P IH]; intros M HM; [done|].
  unfold zero_diagonal in *. simpl. apply IH, m_total_at_set.
Qed.

Lemma zero_diagonal_columns labels :
  NoDup labels →
  ∀ M, m_columns (zero_diagonal M labels) =
         m_columns M ++ filter (λ a, a ∉ m_columns M) labels.
Proof.
  induction 1 as [|p P Hp HP IH]; intros M.
  - by rewrite filter_nil, app_nil_r.
  - unfold zero_diagonal in *. simpl. rewrite IH, at_set_columns, filter_cons.
    destruct (decide (p ∈ m_columns M)) as [Hc|Hc].
    + by rewrite decide_False by (by intros ?).
    + rewrite decide_True by done. rewrite <- app_assoc. simpl. do 2 f_equal.
      apply filter_ext_elem. intros x Hx.
      rewrite elem_of_app, list_elem_of_singleton.
      split; [tauto|]. intros Hn [?| ->]; tauto.
Qed.

Lemma zero_diagonal_at labels :
  NoDup labels →
  ∀ M a b, m_total M → a ∈ m_index M → b ∈ m_columns (zero_diagonal M labels) →
    m_at (zero_diagonal M labels) a b =
      Some (if decide (a = b ∧ a ∈ labels) then Num 0
            else if decide (b ∈ m_columns M) then m_get M a b else NaN).
Proof.
  induction 1 as [|p P Hp HP IH]; intros M a b HM Ha Hb.
  - simpl in *. rewrite decide_False by (intros [_ H]; by apply elem_of_nil in H).
    rewrite decide_True by done. by apply m_get_total.
  - change (zero_diagonal M (p :: P)) with (zero_diagonal (at_set M p p (Num 0)) P) in *.
    rewrite IH; [|apply m_total_at_set|by rewrite at_set_index|done]. f_equal.
    set (M1 := at_set M p p (Num 0)).
    destruct (decide (a = b ∧ a ∈ P)) as [[-> HbP]|Hn1].
    { rewrite decide_True; [done|]. split; [done|by right]. }
    destruct (decide (b ∈ m_columns M1)) as [Hb1|Hb1].
    + unfold m_get at 1. unfold M1. rewrite m_at_at_set by done. simpl.
      destruct (decide (a = p ∧ b = p)) as [[-> ->]|Hn2].
      { rewrite decide_True; [done|]. split; [done|by left]. }
      rewrite (decide_False (P := a = b ∧ a ∈ p :: P)); [done|].
      intros [-> Hin]. apply elem_of_cons in Hin as [->|Hin]; tauto.
    + assert (b ∉ m_columns M) as HbM.
      { intros Hin. apply Hb1. unfold M1. rewrite at_set_columns.
        case_decide; [done|]. apply elem_of_app. by left. }
      assert (b ≠ p) as Hbp.
      { intros ->. apply Hb1. unfold M1. rewrite at_set_columns.
        case_decide; [done|]. apply elem_of_app. right. by left. }
      rewrite (decide_False (P := b ∈ m_columns M)) by done.
      rewrite (decide_False (P := a = b ∧ a ∈ p :: P)); [done|].
      intros [-> Hin]. apply elem_of_cons in Hin as [->|Hin]; tauto.
Qed.
Lemma elem_of_sorted_unique l x : x ∈ sorted_unique l ↔ x ∈ l.
Proof.
  unfold sorted_unique. rewrite merge_sort_Permutation. apply elem_of_remove_dups.
Qed.

Lemma NoDup_sorted_unique l : NoDup (sorted_unique l).
Proof.
  unfold sorted_unique. rewrite merge_sort_Permutation. apply NoDup_remove_dups.
Qed.

Lemma Sorted_sorted_unique l : Sorted Z.le (sorted_unique l).
Proof. apply Sorted_merge_sort. apply _. Qed.

Lemma sorted_unique_ext l1 l2 :
  (∀ x, x ∈ l1 ↔ x ∈ l2) → sorted_unique l1 = sorted_unique l2.
Proof.
  intros H. apply (Sorted_unique Z.le); try apply Sorted_sorted_unique.
  apply NoDup_Permutation; try apply NoDup_sorted_unique.
  intros x. rewrite !elem_of_sorted_unique. apply H.
Qed.

Lemma sorted_unique_idemp l : sorted_unique (sorted_unique l) = sorted_unique l.
Proof. apply sorted_unique_ext. intros x. apply elem_of_sorted_unique. Qed.

Lemma generate_car_matrix_duplicate df rows :
  car_rows df = Some rows → ¬ NoDup rows.*1 → generate_car_matrix df = None.
Proof.
  intros Hrows Hdup. unfold generate_car_matrix. rewrite Hrows. simpl.
  unfold pivot. by rewrite decide_False.
Qed.

Lemma generate_car_matrix_cells df rows :
  car_rows df = Some rows → NoDup rows.*1 →
  let idx := sorted_unique rows.*1.*1 in
  let cols := sorted_unique rows.*1.*2 in
  ∃ M, generate_car_matrix df = Some (M, df)
    ∧ m_index M = idx
    ∧ m_columns M = cols ++ filter (λ a, a ∉ cols) idx
    ∧ m_total M
    ∧ ∀ a b, a ∈ idx → b ∈ m_columns M →
        m_at M a b = Some (if decide (a = b) then Num 0
                           else if decide (b ∈ cols) then car_cell rows a b else NaN).
Proof.
  intros Hrows Hnd idx cols. unfold generate_car_matrix. rewrite Hrows. simpl.
  unfold pivot. rewrite decide_True by done. simpl.
  fold idx cols.
  set (f := λ a b, default NaN ((list_to_map rows : gmap (Z * Z) number) !! (a, b))).
  set (M0 := fillna (Num 0) (tabulate idx cols f)).
  assert (m_total M0) as HM0 by apply m_total_fillna, m_total_tabulate.
  assert (NoDup idx) as Hidx by apply NoDup_sorted_unique.
  eexists. split; [reflexivity|].
  split; [apply zero_diagonal_index|].
  split; [by rewrite zero_diagonal_columns|].
  split; [by apply zero_diagonal_total|].
  intros a b Ha Hb. rewrite zero_diagonal_at by done. f_equal.
  destruct (decide (a = b)) as [->|Hab].
  { by rewrite decide_True. }
  rewrite decide_False by tauto.
  change (m_columns M0) with cols. case_decide as Hc; [|done].
  unfold m_get, M0. rewrite m_at_fillna, m_at_tabulate by done. simpl.
  unfold f, car_cell.
  by destruct (_ !! (a, b)) as [[| |]|].
Qed.
Lemma m_shape_tabulate idx cols f : m_shape (tabulate idx cols f).
Proof.
  split; simpl; [by rewrite length_fmap|].
  apply Forall_fmap, Forall_forall. intros a _. simpl. by rewrite length_fmap.
Qed.

Lemma m_shape_fillna x M : m_shape M → m_shape (fillna x M).
Proof.
  intros [H1 H2]. split; simpl; [by rewrite length_fmap|].
  apply Forall_fmap. eapply Forall_impl; [exact H2|].
  intros row Hrow. simpl. by rewrite length_fmap.
Qed.

Lemma m_shape_zero_diagonal labels : ∀ M, m_shape M → m_shape (zero_diagonal M labels).
Proof.
  induction labels as [|p P IH]; intros M HM; [done|].
  unfold zero_diagonal in *. simpl. apply IH.
  unfold at_set. case_decide; apply m_shape_tabulate.
Qed.

Lemma generate_car_matrix_shape df M df' :
  generate_car_matrix df = Some (M, df') → m_shape M ∧ df' = df.
Proof.
  unfold generate_car_matrix. intros H.
  destruct (car_rows df) as [rows|]; [simpl in H|done].
  unfold pivot in H. case_decide; [simpl in H|done].
  injection H as <- <-. split; [|done].
  apply m_shape_zero_diagonal, m_shape_fillna, m_shape_tabulate.
Qed.

Lemma car_cell_absent rows a b : (a, b) ∉ rows.*1 → car_cell rows a b = Num 0.
Proof.
  intros H. unfold car_cell.
  by rewrite (not_elem_of_list_to_map_1 (M := gmap (Z * Z)) rows (a, b) H).
Qed.

Lemma car_cell_present rows a b v :
  NoDup rows.*1 → (a, b, v) ∈ rows →
  car_cell rows a b = if is_nan v then Num 0 else v.
Proof.
  intros Hnd Hin. unfold car_cell.
  rewrite (elem_of_list_to_map_1 (M := gmap (Z * Z)) rows (a, b) v Hnd Hin).
  by destruct v.
Qed.

Lemma filter_none {A} (P : A → Prop) `{!∀ x, Decision (P x)} (l : list A) :
  (∀ x, x ∈ l → ¬ P x) → filter P l = [].
Proof.
  induction l as [|x l IH]; intros Hn; [done|].
  rewrite filter_cons_False by (apply Hn; by left).
  apply IH. intros y Hy. apply Hn. by right.
Qed.

(** C3 (as amended): when no (id_1, id_2) pair is repeated and the
    identifiers occurring as id_1 are the same as those occurring as id_2,
    the matrix of [generate_car_matrix] is square, its index and its
    columns are the sorted distinct identifiers, every diagonal cell is 0
    and every combination without an input row is 0. *)
Theorem generate_car_matrix_square df rows :
  car_rows df = Some rows →
  NoDup rows.*1 →
  (∀ a, a ∈ rows.*1.*1 ↔ a ∈ rows.*1.*2) →
  ∃ M, generate_car_matrix df = Some (M, df)
    ∧ m_square M
    ∧ m_index M = sorted_unique (rows.*1.*1 ++ rows.*1.*2)
    ∧ m_columns M = m_index M
    ∧ (∀ a, a ∈ m_index M → m_at M a a = Some (Num 0))
    ∧ (∀ a b, a ∈ m_index M → b ∈ m_index M → (a, b) ∉ rows.*1 →
         m_at M a b = Some (Num 0)).
Proof.
  intros Hrows Hnd Hsame.
  destruct (generate_car_matrix_cells df rows Hrows Hnd)
    as (M & HM & Hidx & Hcols & _ & Hat).
  assert (sorted_unique rows.*1.*2 = sorted_unique rows.*1.*1) as Hc.
  { apply sorted_unique_ext. intros x. by rewrite Hsame. }
  rewrite Hc in Hcols, Hat.
  rewrite filter_none, app_nil_r in Hcols by (intros x Hx; tauto).
  assert (m_index M = sorted_unique (rows.*1.*1 ++ rows.*1.*2)) as Hidx'.
  { rewrite Hidx. apply sorted_unique_ext. intros x.
    rewrite elem_of_app, Hsame. tauto. }
  exists M. split; [done|].
  split.
  { split; [by apply (generate_car_matrix_shape df M df)|]. by rewrite Hcols, Hidx. }
  split; [done|]. split; [by rewrite Hcols, Hidx|].
  rewrite Hidx. split.
  - intros a Ha. rewrite Hat by (by rewrite ?Hcols). by rewrite decide_True.
  - intros a b Ha Hb Hab. rewrite Hat by (by rewrite ?Hcols). f_equal.
    destruct (decide (a = b)); [done|].
    rewrite decide_True by done. by apply car_cell_absent.
Qed.

Lemma generate_car_matrix_square_witness :
  ∃ M, generate_car_matrix two_way_table = Some (M, two_way_table)
    ∧ m_square M
    ∧ m_index M = sorted_unique ([1; 2; 3] ++ [2; 3; 1])
    ∧ m_columns M = m_index M
    ∧ (∀ a, a ∈ m_index M → m_at M a a = Some (Num 0))
    ∧ (∀ a b, a ∈ m_index M → b ∈ m_index M →
         (a, b) ∉ [(1, 2); (2, 3); (3, 1)] → m_at M a b = Some (Num 0)).
Proof.
  apply (generate_car_matrix_square two_way_table
           [(1, 2, Num 5); (2, 3, Num 6); (3, 1, Num 7)]).
  - reflexivity.
  - refine (bool_decide_unpack _ _). vm_compute. exact I.
  - intros a. simpl. rewrite !elem_of_cons, !elem_of_nil. lia.
Defined.

(** C3 fails as stated: on [one_sided_table] (rows (1,2,5) and (3,2,6))
    the matrix has index 1, 3 and columns 2, 1, 3, so it is not square and
    its label sets differ, and cell (3,1), which has no input row, holds
    NaN. *)
Lemma generate_car_matrix_not_square :
  ∃ M, generate_car_matrix one_sided_table = Some (M, one_sided_table)
    ∧ m_index M = [1; 3] ∧ m_columns M = [2; 1; 3]
    ∧ length (m_index M) ≠ length (m_columns M)
    ∧ ¬ (∀ a, a ∈ m_index M ↔ a ∈ m_columns M)
    ∧ car_rows one_sided_table = Some [(1, 2, Num 5); (3, 2, Num 6)]
    ∧ m_at M 3 1 = Some NaN.
Proof.
  eexists. split; [vm_compute; reflexivity|]. simpl.
  repeat split; try done.
  intros H. specialize (H 2). rewrite !elem_of_cons, !elem_of_nil in H. lia.
Qed.
Lemma elem_of_index_pairs idx s e :
  (s, e) ∈ index_pairs idx ↔ s ∈ idx ∧ e ∈ idx ∧ s ≠ e.
Proof.
  unfold index_pairs. rewrite list_elem_of_bind. split.
  - intros (s' & H & Hs'). apply list_elem_of_bind in H as (e' & H & He').
    case_decide; [|by apply elem_of_nil in H].
    apply list_elem_of_singleton in H. by simplify_eq.
  - intros (Hs & He & Hne). exists s. split; [|done].
    apply list_elem_of_bind. exists e. split; [|done].
    rewrite decide_True by done. by left.
Qed.

Lemma NoDup_index_pairs idx : NoDup idx → NoDup (index_pairs idx).
Proof.
  intros Hnd. unfold index_pairs. apply NoDup_bind; [| |done].
  - intros s1 s2 p _ _ H1 H2.
    apply list_elem_of_bind in H1 as (e1 & H1 & _), H2 as (e2 & H2 & _).
    repeat case_decide; try (by apply elem_of_nil in H1); try (by apply elem_of_nil in H2).
    apply list_elem_of_singleton in H1, H2. congruence.
  - intros s _. apply NoDup_bind; [| |done].
    + intros e1 e2 p _ _ H1 H2.
      repeat case_decide; try (by apply elem_of_nil in H1); try (by apply elem_of_nil in H2).
      apply list_elem_of_singleton in H1, H2. congruence.
    + intros e _. case_decide; [apply NoDup_singleton|apply NoDup_nil_2].
Qed.

Lemma mapM_fmap_Some {A B} (f : A → option B) (g : A → B) (l : list A) :
  (∀ x, x ∈ l → f x = Some (g x)) → mapM f l = Some (g <$> l).
Proof.
  intros H. apply mapM_Some. apply Forall2_fmap_r, Forall_Forall2_diag, Forall_forall.
  exact H.
Qed.

Lemma zip_pairs_fmap {A B C} (g : A * B → C) (l : list (A * B)) :
  zip (zip l.*1 l.*2) (g <$> l) = (λ p, (p, g p)) <$> l.
Proof. induction l as [|[a b] l IH]; [done|]. csimpl. by rewrite IH. Qed.

Lemma edge_rows_frame idx a b d :
  edge_rows (mk_df idx [("id_start", IntCol a); ("id_end", IntCol b);
                        ("distance", FloatCol d)])
  = Some (zip (zip a b) d).
Proof. reflexivity. Qed.

Lemma car_rows_as_car_table idx a b d :
  car_rows (as_car_table (mk_df idx [("id_start", IntCol a); ("id_end", IntCol b);
                                     ("distance", FloatCol d)]))
  = Some (zip (zip a b) d).
Proof. reflexivity. Qed.

Lemma unroll_distance_matrix_rows M :
  m_total M → (∀ a, a ∈ m_index M → a ∈ m_columns M) →
  index_pairs (m_index M) ≠ [] →
  ∃ U, unroll_distance_matrix M = Some (U, M)
    ∧ edge_rows U = Some ((λ p, (p, m_get M p.1 p.2)) <$> index_pairs (m_index M))
    ∧ car_rows (as_car_table U) = edge_rows U.
Proof.
  intros Htot Hsub Hne. unfold unroll_distance_matrix.
  rewrite (mapM_fmap_Some _ (λ p, m_get M p.1 p.2)).
  2:{ intros [s e] Hp. apply elem_of_index_pairs in Hp as (Hs & He & _).
      simpl. apply m_get_total; auto. }
  destruct (index_pairs (m_index M)) as [|p ps] eqn:E; [done|].
  rewrite <- E. clear E. cbn [mbind option_bind].
  eexists. split; [reflexivity|].
  rewrite edge_rows_frame, car_rows_as_car_table, zip_pairs_fmap. done.
Qed.
Lemma index_pairs_nonempty idx a a' :
  a ∈ idx → a' ∈ idx → a ≠ a' → index_pairs idx ≠ [].
Proof.
  intros Ha Ha' Hne E.
  assert ((a, a') ∈ index_pairs idx) as H by (by apply elem_of_index_pairs).
  rewrite E in H. by apply elem_of_nil in H.
Qed.

Lemma index_pairs_fst idx a a' x :
  a ∈ idx → a' ∈ idx → a ≠ a' →
  x ∈ (index_pairs idx).*1 ↔ x ∈ idx.
Proof.
  intros Ha Ha' Hne. rewrite list_elem_of_fmap. split.
  - intros ([s e] & -> & H). by apply elem_of_index_pairs in H as (? & _).
  - intros Hx. destruct (decide (x = a)) as [->|Hxa].
    + exists (a, a'). split; [done|]. by apply elem_of_index_pairs.
    + exists (x, a). split; [done|]. by apply elem_of_index_pairs.
Qed.

Lemma index_pairs_snd idx a a' x :
  a ∈ idx → a' ∈ idx → a ≠ a' →
  x ∈ (index_pairs idx).*2 ↔ x ∈ idx.
Proof.
  intros Ha Ha' Hne. rewrite list_elem_of_fmap. split.
  - intros ([s e] & -> & H). by apply elem_of_index_pairs in H as (? & ? & _).
  - intros Hx. destruct (decide (x = a)) as [->|Hxa].
    + exists (a', a). split; [done|]. by apply elem_of_index_pairs.
    + exists (a, x). split; [done|]. by apply elem_of_index_pairs.
Qed.

(** C6 (as amended): for a table without repeated (id_1, id_2) pairs in
    which every identifier occurring as id_2 also occurs as id_1, and with
    at least two distinct id_1 identifiers, unrolling the built matrix
    gives exactly one row for each ordered pair (i, j), i ≠ j, of index
    labels, holding the cell at (i, j); rebuilding a matrix from that
    table gives back the value of every non-diagonal input row. *)
Theorem unroll_rebuild_round_trip df rows :
  car_rows df = Some rows →
  NoDup rows.*1 →
  (∀ b, b ∈ rows.*1.*2 → b ∈ rows.*1.*1) →
  (∃ a a', a ∈ rows.*1.*1 ∧ a' ∈ rows.*1.*1 ∧ a ≠ a') →
  ∃ M U unrolled M',
    generate_car_matrix df = Some (M, df)
    ∧ unroll_distance_matrix M = Some (U, M)
    ∧ edge_rows U = Some unrolled
    ∧ generate_car_matrix (as_car_table U) = Some (M', as_car_table U)
    ∧ NoDup unrolled.*1
    ∧ (∀ i j d, (i, j, d) ∈ unrolled ↔
         i ∈ m_index M ∧ j ∈ m_index M ∧ i ≠ j ∧ m_at M i j = Some d)
    ∧ (∀ i j v, (i, j, v) ∈ rows → i ≠ j → v ≠ NaN →
         m_at M i j = Some v ∧ m_at M' i j = Some v).
Proof.
  intros Hrows Hnd Hsub (a & a' & Ha & Ha' & Hne).
  destruct (generate_car_matrix_cells df rows Hrows Hnd)
    as (M & HM & Hidx & Hcols & Htot & Hat).
  set (idx := sorted_unique rows.*1.*1) in *.
  set (cols := sorted_unique rows.*1.*2) in *.
  assert (a ∈ idx ∧ a' ∈ idx) as [Hai Hai'] by (unfold idx; by rewrite !elem_of_sorted_unique).
  assert (∀ x, x ∈ m_index M → x ∈ m_columns M) as Hic.
  { intros x Hx. rewrite Hcols, elem_of_app, list_elem_of_filter.
    rewrite Hidx in Hx. destruct (decide (x ∈ cols)); tauto. }
  destruct (unroll_distance_matrix_rows M Htot Hic) as (U & HU & HUrows & HUcar).
  { rewrite Hidx. by apply (index_pairs_nonempty _ a a'). }
  rewrite Hidx in HUrows.
  set (unrolled := (λ p, (p, m_get M p.1 p.2)) <$> index_pairs idx) in *.
  assert (unrolled.*1 = index_pairs idx) as Hfst.
  { unfold unrolled. rewrite <- list_fmap_compose. apply list_fmap_id. }
  assert (NoDup unrolled.*1) as Hnd'.
  { rewrite Hfst. apply NoDup_index_pairs, NoDup_sorted_unique. }
  rewrite <- HUcar in HUrows.
  destruct (generate_car_matrix_cells (as_car_table U) unrolled HUrows Hnd')
    as (M' & HM' & Hidx' & Hcols' & Htot' & Hat').
  rewrite Hfst in Hidx', Hcols', Hat'.
  assert (sorted_unique (index_pairs idx).*1 = idx) as E1.
  { transitivity (sorted_unique idx); [|apply sorted_unique_idemp].
    apply sorted_unique_ext. intros x. by apply (index_pairs_fst _ a a'). }
  assert (sorted_unique (index_pairs idx).*2 = idx) as E2.
  { transitivity (sorted_unique idx); [|apply sorted_unique_idemp].
    apply sorted_unique_ext. intros x. by apply (index_pairs_snd _ a a'). }
  rewrite E1, E2 in *.
  rewrite filter_none, app_nil_r in Hcols' by (intros x Hx; tauto).
  assert (∀ i j d, (i, j, d) ∈ unrolled ↔
            i ∈ idx ∧ j ∈ idx ∧ i ≠ j ∧ m_at M i j = Some d) as Hun.
  { intros i j d. unfold unrolled. rewrite list_elem_of_fmap. split.
    - intros ([s e] & Heq & Hp). simpl in Heq. simplify_eq.
      apply elem_of_index_pairs in Hp as (Hs & He & Hse).
      repeat split; try done. apply m_get_total; [done|by rewrite Hidx|].
      apply Hic. by rewrite Hidx.
    - intros (Hi & Hj & Hij & Hd). exists (i, j). simpl.
      split; [|by apply elem_of_index_pairs].
      unfold m_get. by rewrite Hd. }
  exists M, U, unrolled, M'. rewrite HUcar in HUrows.
  split_and!; try done.
  - intros i j d. rewrite Hidx. apply Hun.
  - intros i j v Hin Hij Hv.
    assert (i ∈ idx) as Hi.
    { unfold idx. rewrite elem_of_sorted_unique. apply list_elem_of_fmap.
      exists (i, j). split; [done|]. apply list_elem_of_fmap. by exists (i, j, v). }
    assert (j ∈ rows.*1.*2) as Hj2.
    { apply list_elem_of_fmap.
      exists (i, j). split; [done|]. apply list_elem_of_fmap. by exists (i, j, v). }
    assert (j ∈ cols) as Hjc by (unfold cols; by rewrite elem_of_sorted_unique).
    assert (j ∈ idx) as Hj by (unfold idx; rewrite elem_of_sorted_unique; auto).
    assert (m_at M i j = Some v) as HMv.
    { rewrite Hat; [|done|rewrite Hcols, elem_of_app; by left].
      rewrite decide_False, decide_True by done.
      rewrite (car_cell_present rows i j v) by done. by destruct v. }
    split; [done|].
    rewrite Hat' by (by rewrite ?Hcols').
    rewrite decide_False, decide_True by done.
    rewrite (car_cell_present unrolled i j v); [by destruct v|done|].
    by apply Hun.
Qed.

Lemma unroll_rebuild_round_trip_witness :
  ∃ M U unrolled M',
    generate_car_matrix two_way_table = Some (M, two_way_table)
    ∧ unroll_distance_matrix M = Some (U, M)
    ∧ edge_rows U = Some unrolled
    ∧ generate_car_matrix (as_car_table U) = Some (M', as_car_table U)
    ∧ NoDup unrolled.*1
    ∧ (∀ i j d, (i, j, d) ∈ unrolled ↔
         i ∈ m_index M ∧ j ∈ m_index M ∧ i ≠ j ∧ m_at M i j = Some d)
    ∧ (∀ i j v, (i, j, v) ∈ [(1, 2, Num 5); (2, 3, Num 6); (3, 1, Num 7)] →
         i ≠ j → v ≠ NaN → m_at M i j = Some v ∧ m_at M' i j = Some v).
Proof.
  apply (unroll_rebuild_round_trip two_way_table
           [(1, 2, Num 5); (2, 3, Num 6); (3, 1, Num 7)]).
  - reflexivity.
  - refine (bool_decide_unpack _ _). vm_compute. exact I.
  - intros b. simpl. rewrite !elem_of_cons, !elem_of_nil. lia.
  - exists 1, 2. simpl. rewrite !elem_of_cons. split_and!; [auto|auto|lia].
Defined.

(** C6 fails as stated: on [dangling_end_table] (rows (1,2,5), (2,1,7),
    (1,3,9)) the built matrix holds 9 at (1,3), the unrolled table ranges
    over the index labels 1 and 2 only, and the rebuilt matrix has no cell
    (1,3) at all. *)
Lemma round_trip_loses_dangling_pair :
  ∃ M U M',
    generate_car_matrix dangling_end_table = Some (M, dangling_end_table)
    ∧ unroll_distance_matrix M = Some (U, M)
    ∧ generate_car_matrix (as_car_table U) = Some (M', as_car_table U)
    ∧ car_rows dangling_end_table = Some [(1, 2, Num 5); (2, 1, Num 7); (1, 3, Num 9)]
    ∧ m_at M 1 3 = Some (Num 9)
    ∧ edge_rows U = Some [(1, 2, Num 5); (2, 1, Num 7)]
    ∧ m_at M' 1 3 = None.
Proof.
  eexists _, _, _. split; [vm_compute; reflexivity|].
  split; [vm_compute; reflexivity|].
  split; [vm_compute; reflexivity|]. done.
Qed.
(** ** Floyd-Warshall on arrays *)

Lemma square_cell n A r c :
  square n A → (r < n)%nat → (c < n)%nat →
  ∃ row, A !! r = Some row ∧ length row = n ∧ row !! c = Some (cell A r c).
Proof.
  intros [Hlen Hrows] Hr Hc.
  destruct (lookup_lt_is_Some_2 A r) as [row Hrow]; [lia|].
  assert (length row = n) as Hl.
  { eapply Forall_forall in Hrows; [exact Hrows|]. by eapply list_elem_of_lookup_2. }
  destruct (lookup_lt_is_Some_2 row c) as [x Hx]; [lia|].
  exists row. unfold cell. rewrite Hrow. simpl. by rewrite Hx.
Qed.

Lemma relax_square n A i : square n A → (i < n)%nat → square n (relax A i).
Proof.
  intros HA Hi. destruct (square_cell n A i i HA Hi Hi) as (row_i & Hrow_i & Hl_i & _).
  destruct HA as [Hlen Hrows]. unfold relax. rewrite Hrow_i. simpl. split.
  - rewrite length_zip_with, length_fmap. lia.
  - apply Forall_forall. intros row Hrow.
    apply elem_of_lookup_zip_with in Hrow as (r & row' & a & -> & Hr & _).
    rewrite length_zip_with.
    eapply Forall_forall in Hrows; [|by eapply list_elem_of_lookup_2]. lia.
Qed.

Lemma relax_cell n A i r c :
  square n A → (i < n)%nat → (r < n)%nat → (c < n)%nat →
  cell (relax A i) r c = nmin (cell A r c) (nadd (cell A i c) (cell A r i)).
Proof.
  intros HA Hi Hr Hc.
  destruct (square_cell n A i c HA Hi Hc) as (row_i & Hrow_i & Hl_i & Hic).
  destruct (square_cell n A r c HA Hr Hc) as (row_r & Hrow_r & Hl_r & Hrc).
  destruct (square_cell n A r i HA Hr Hi) as (row_r' & Hrow_r' & _ & Hri).
  simplify_eq. unfold relax, cell at 1. rewrite Hrow_i. simpl.
  rewrite lookup_zip_with, Hrow_r. simpl.
  rewrite list_lookup_fmap, Hrow_r. simpl.
  rewrite lookup_zip_with, Hrc, Hic. simpl. by rewrite Hri.
Qed.

Lemma foldl_relax_square n A k :
  square n A → (k ≤ n)%nat → square n (foldl relax A (seq 0 k)).
Proof.
  intros HA. induction k as [|k IH]; intros Hk; [done|].
  rewrite seq_S, foldl_app. simpl. apply relax_square; [apply IH|]; lia.
Qed.
Lemma Qplus_comm_L (x y : Q) : (x + y)%Q = (y + x)%Q.
Proof.
  destruct x as [a b], y as [c d]. unfold Qplus. simpl. f_equal; lia.
Qed.

Lemma nadd_comm a b : nadd a b = nadd b a.
Proof. destruct a, b; simpl; try done. by rewrite Qplus_comm_L. Qed.

Lemma nadd_Num a b d :
  nadd a b = Num d → ∃ x y, a = Num x ∧ b = Num y ∧ d = (x + y)%Q.
Proof. destruct a, b; simpl; intros; simplify_eq. eauto. Qed.

Lemma nadd_not_nan a b : a ≠ NaN → b ≠ NaN → nadd a b ≠ NaN.
Proof. by destruct a, b. Qed.

Lemma nmin_Num a b d : nmin a b = Num d → a = Num d ∨ b = Num d.
Proof.
  destruct a as [x| |], b as [y| |]; simpl; intros H; try done; auto.
  destruct (Qle_bool x y); auto.
Qed.

Lemma nmin_not_nan a b : a ≠ NaN → b ≠ NaN → nmin a b ≠ NaN.
Proof.
  destruct a as [x| |], b as [y| |]; simpl; try done. by destruct (Qle_bool x y).
Qed.

Lemma nmin_le_l x b :
  b ≠ NaN → ∃ d, nmin (Num x) b = Num d ∧ (d <= x)%Q.
Proof.
  destruct b as [y| |]; simpl; intros Hb; try done.
  - destruct (Qle_bool x y) eqn:E.
    + exists x. split; [done|]. lra.
    + exists y. split; [done|]. apply Qle_bool_false in E. lra.
  - exists x. split; [done|]. lra.
Qed.

Lemma nmin_le_r a y :
  a ≠ NaN → ∃ d, nmin a (Num y) = Num d ∧ (d <= y)%Q.
Proof.
  destruct a as [x| |]; simpl; intros Ha; try done.
  - destruct (Qle_bool x y) eqn:E.
    + exists x. split; [done|]. by apply Qle_bool_iff.
    + exists y. split; [done|]. lra.
  - exists y. split; [done|]. lra.
Qed.

Lemma nmin_zero_nonneg b :
  (∀ y, b = Num y → (0 <= y)%Q) → b ≠ NaN → nmin (Num 0) b = Num 0.
Proof.
  destruct b as [y| |]; simpl; intros Hy Hb; try done.
  specialize (Hy y eq_refl). apply Qle_bool_iff in Hy. by rewrite Hy.
Qed.

Section walks.
Variable W : Z → Z → option Q.
Hypothesis W_nonneg : ∀ u v q, W u v = Some q → (0 <= q)%Q.

Lemma walk_weight_nonneg via : ∀ u v d, walk_weight W u via v = Some d → (0 <= d)%Q.
Proof.
  induction via as [|x via IH]; intros u v d H; simpl in H.
  - by eapply W_nonneg.
  - destruct (W u x) as [w|] eqn:Hw; [simpl in H|done].
    destruct (walk_weight W x via v) as [d'|] eqn:Hd; [simpl in H|done].
    simplify_eq. apply W_nonneg in Hw. apply IH in Hd. lra.
Qed.

Lemma reach_nonneg u v d : reach W u v d → (0 <= d)%Q.
Proof.
  intros [[_ H]|(via & d' & H & Heq)]; [lra|].
  apply walk_weight_nonneg in H. lra.
Qed.

Lemma reach_Qeq u v d d' : reach W u v d → (d == d')%Q → reach W u v d'.
Proof.
  intros [[-> H]|(via & d0 & H & Heq)] E.
  - left. split; [done|]. lra.
  - right. exists via, d0. split; [done|]. lra.
Qed.

Lemma walk_weight_app via1 : ∀ u x via2 v d1 d2,
  walk_weight W u via1 x = Some d1 → walk_weight W x via2 v = Some d2 →
  ∃ d, walk_weight W u (via1 ++ x :: via2) v = Some d ∧ Qeq d (d1 + d2).
Proof.
  induction via1 as [|y via1 IH]; intros u x via2 v d1 d2 H1 H2; simpl in *.
  - rewrite H1, H2. simpl. eexists. split; [done|]. lra.
  - destruct (W u y) as [w|]; [simpl in *|done].
    destruct (walk_weight W y via1 x) as [d1'|] eqn:Hd; [simpl in *|done].
    simplify_eq. destruct (IH _ _ _ _ _ _ Hd H2) as (d & -> & Heq). simpl.
    eexists. split; [done|]. lra.
Qed.

Lemma reach_trans u x v d1 d2 :
  reach W u x d1 → reach W x v d2 → reach W u v (d1 + d2).
Proof.
  intros [[-> H1]|(via1 & e1 & H1 & E1)] [[-> H2]|(via2 & e2 & H2 & E2)].
  - left. split; [done|]. lra.
  - right. exists via2, e2. split; [done|]. lra.
  - right. exists via1, e1. split; [done|]. lra.
  - destruct (walk_weight_app _ _ _ _ _ _ _ H1 H2) as (d & Hd & E).
    right. exists (via1 ++ x :: via2), d. split; [done|]. lra.
Qed.

(** A walk through [x] splits at the first visit of [x]. *)
Lemma walk_weight_first_visit x via : ∀ u v d,
  x ∈ via → walk_weight W u via v = Some d →
  ∃ via1 via2 d1 d2,
    via = via1 ++ x :: via2 ∧ (x ∉ via1)
    ∧ walk_weight W u via1 x = Some d1 ∧ walk_weight W x via2 v = Some d2
    ∧ Qeq d (d1 + d2).
Proof.
  induction via as [|y via IH]; intros u v d Hin H.
  { by apply elem_of_nil in Hin. }
  simpl in H. destruct (W u y) as [w|] eqn:Hw; [simpl in H|done].
  destruct (walk_weight W y via v) as [d'|] eqn:Hd; [simpl in H|done]. simplify_eq.
  destruct (decide (y = x)) as [->|Hne].
  - exists [], via, w, d'. split_and!; try done; try lra; apply not_elem_of_nil.
  - apply elem_of_cons in Hin as [?|Hin]; [done|].
    destruct (IH _ _ _ Hin Hd) as (via1 & via2 & d1 & d2 & -> & Hn & H1 & H2 & E).
    exists (y :: via1), via2, (w + d1)%Q, d2. split_and!; try done; try lra.
    + apply not_elem_of_cons. auto.
    + simpl. by rewrite Hw, H1.
Qed.

(** After the last visit of [x] the walk no longer passes through [x],
    and that tail weighs no more than the whole. *)
Lemma walk_weight_last_visit x via : ∀ u v d,
  x ∈ via → walk_weight W u via v = Some d →
  ∃ via3 d3,
    walk_weight W x via3 v = Some d3 ∧ (d3 <= d)%Q ∧ (x ∉ via3) ∧ via3 ⊆ via.
Proof.
  induction via as [|y via IH]; intros u v d Hin H.
  { by apply elem_of_nil in Hin. }
  simpl in H. destruct (W u y) as [w|] eqn:Hw; [simpl in H|done].
  destruct (walk_weight W y via v) as [d'|] eqn:Hd; [simpl in H|done]. simplify_eq.
  pose proof (W_nonneg _ _ _ Hw) as Hw0.
  destruct (decide (x ∈ via)) as [Hx|Hx].
  - destruct (IH _ _ _ Hx Hd) as (via3 & d3 & H3 & Hle & Hn & Hsub).
    exists via3, d3. split_and!; try done; try lra.
    intros z Hz. right. by apply Hsub.
  - apply elem_of_cons in Hin as [->|?]; [|done].
    exists via, d'. split_and!; try done; try lra.
    intros z Hz. by right.
Qed.

(** A walk through [x] can be replaced by one that enters [x] once: a
    walk to [x] and a walk from [x], both avoiding [x] on the way. *)
Lemma walk_weight_through x via u v d :
  x ∈ via → walk_weight W u via v = Some d →
  ∃ via1 via3 d1 d3,
    walk_weight W u via1 x = Some d1 ∧ walk_weight W x via3 v = Some d3
    ∧ (d1 + d3 <= d)%Q ∧ (x ∉ via1) ∧ (x ∉ via3) ∧ via1 ⊆ via ∧ via3 ⊆ via.
Proof.
  intros Hin H.
  destruct (walk_weight_first_visit x via u v d Hin H)
    as (via1 & via2 & d1 & d2 & -> & Hn1 & H1 & H2 & E).
  assert (via1 ⊆ via1 ++ x :: via2) as Hs1.
  { intros z Hz. apply elem_of_app. by left. }
  assert (via2 ⊆ via1 ++ x :: via2) as Hs2.
  { intros z Hz. apply elem_of_app. right. by right. }
  destruct (decide (x ∈ via2)) as [Hx|Hx].
  - destruct (walk_weight_last_visit x via2 x v d2 Hx H2)
      as (via3 & d3 & H3 & Hle & Hn3 & Hsub).
    exists via1, via3, d1, d3. split_and!; try done; try lra.
    intros z Hz. apply Hs2. by apply Hsub.
  - exists via1, via2, d1, d2. split_and!; try done. lra.
Qed.

End walks.
Section floyd_warshall.
Variable nodes : list Z.
Variable W : Z → Z → option Q.
Variable A0 : list (list number).
Hypothesis nodes_NoDup : NoDup nodes.
Hypothesis W_nonneg : ∀ u v q, W u v = Some q → (0 <= q)%Q.
Hypothesis W_nodes : ∀ u v q, W u v = Some q → u ∈ nodes ∧ v ∈ nodes.
Hypothesis A0_square : square (length nodes) A0.
Hypothesis A0_diag : ∀ i, (i < length nodes)%nat → cell A0 i i = Num 0.
Hypothesis A0_edge : ∀ i j u v,
  i ≠ j → nodes !! i = Some u → nodes !! j = Some v →
  cell A0 i j = match W u v with Some q => Num q | None => PInf end.

Local Abbreviation n := (length nodes).
Local Abbreviation stage k := (foldl relax A0 (seq 0 k)).

Lemma stage_cell k i j :
  (k < n)%nat → (i < n)%nat → (j < n)%nat →
  cell (stage (S k)) i j =
    nmin (cell (stage k) i j) (nadd (cell (stage k) k j) (cell (stage k) i k)).
Proof.
  intros Hk Hi Hj. rewrite seq_S, foldl_app. simpl.
  apply (relax_cell n); try done. apply foldl_relax_square; [done|lia].
Qed.

(** Every finite entry is the weight of some walk; no entry is NaN. *)
Lemma stage_sound k : (k ≤ n)%nat →
  ∀ i j u v, nodes !! i = Some u → nodes !! j = Some v →
    cell (stage k) i j ≠ NaN ∧ ∀ d, cell (stage k) i j = Num d → reach W u v d.
Proof.
  induction k as [|k IH]; intros Hk i j u v Hu Hv.
  - simpl. destruct (decide (i = j)) as [->|Hij].
    + rewrite A0_diag by (by eapply lookup_lt_Some). split; [done|].
      intros d [= <-]. left. split; [congruence|]. lra.
    + rewrite (A0_edge i j u v) by done.
      destruct (W u v) as [q|] eqn:Hw; (split; [done|]); intros d [= <-].
      right. exists [], q. split; [done|]. lra.
  - pose proof (lookup_lt_Some _ _ _ Hu) as Hi.
    pose proof (lookup_lt_Some _ _ _ Hv) as Hj.
    destruct (lookup_lt_is_Some_2 nodes k) as [x Hx]; [lia|].
    rewrite stage_cell by (done || lia).
    destruct (IH ltac:(lia) i j u v Hu Hv) as [N1 S1].
    destruct (IH ltac:(lia) k j x v Hx Hv) as [N2 S2].
    destruct (IH ltac:(lia) i k u x Hu Hx) as [N3 S3].
    split; [by apply nmin_not_nan, nadd_not_nan|].
    intros d Hd. apply nmin_Num in Hd as [Hd|Hd]; [by apply S1|].
    apply nadd_Num in Hd as (d2 & d3 & E2 & E3 & ->).
    eapply reach_Qeq; [apply (reach_trans W u x v d3 d2); auto|]. lra.
Qed.

Lemma stage_diag k : (k ≤ n)%nat → ∀ i, (i < n)%nat → cell (stage k) i i = Num 0.
Proof.
  induction k as [|k IH]; intros Hk i Hi; [by apply A0_diag|].
  destruct (lookup_lt_is_Some_2 nodes k) as [x Hx]; [lia|].
  destruct (lookup_lt_is_Some_2 nodes i) as [u Hu]; [lia|].
  rewrite stage_cell, IH by (done || lia).
  destruct (stage_sound k ltac:(lia) k i x u Hx Hu) as [N2 S2].
  destruct (stage_sound k ltac:(lia) i k u x Hu Hx) as [N3 S3].
  apply nmin_zero_nonneg; [|by apply nadd_not_nan].
  intros y Hy. apply nadd_Num in Hy as (d2 & d3 & E2 & E3 & ->).
  apply S2, (reach_nonneg W W_nonneg) in E2.
  apply S3, (reach_nonneg W W_nonneg) in E3. lra.
Qed.

(** After [k] rounds an entry is at most the weight of any walk whose
    intermediate nodes are among the first [k] nodes. *)
Lemma stage_complete k : (k ≤ n)%nat →
  ∀ i j u v via d', nodes !! i = Some u → nodes !! j = Some v →
    via ⊆ take k nodes → walk_weight W u via v = Some d' →
    ∃ d, cell (stage k) i j = Num d ∧ (d <= d')%Q.
Proof.
  induction k as [|k IH]; intros Hk i j u v via d' Hu Hv Hvia Hw.
  - destruct via as [|y via].
    2:{ exfalso. specialize (Hvia y ltac:(by left)). by apply elem_of_nil in Hvia. }
    simpl in *. destruct (decide (i = j)) as [->|Hij].
    + rewrite A0_diag by (by eapply lookup_lt_Some). exists 0%Q. split; [done|].
      by eapply W_nonneg.
    + rewrite (A0_edge i j u v), Hw by done. exists d'. split; [done|]. lra.
  - pose proof (lookup_lt_Some _ _ _ Hu) as Hi.
    pose proof (lookup_lt_Some _ _ _ Hv) as Hj.
    destruct (lookup_lt_is_Some_2 nodes k) as [x Hx]; [lia|].
    rewrite stage_cell by (done || lia).
    destruct (stage_sound k ltac:(lia) i j u v Hu Hv) as [N1 _].
    destruct (stage_sound k ltac:(lia) k j x v Hx Hv) as [N2 _].
    destruct (stage_sound k ltac:(lia) i k u x Hu Hx) as [N3 _].
    assert (∀ l : list Z, l ⊆ via → x ∉ l → l ⊆ take k nodes) as Hsmall.
    { intros l Hl Hn z Hz. specialize (Hvia z (Hl z Hz)).
      rewrite (take_S_r _ _ x) in Hvia by done.
      apply elem_of_app in Hvia as [?|Hzx]; [done|].
      apply list_elem_of_singleton in Hzx. by subst. }
    destruct (decide (x ∈ via)) as [Hin|Hin].
    + destruct (walk_weight_through W W_nonneg x via u v d' Hin Hw)
        as (via1 & via3 & d1 & d3 & H1 & H3 & Hle & Hn1 & Hn3 & Hs1 & Hs3).
      destruct (IH ltac:(lia) i k u x via1 d1 Hu Hx (Hsmall _ Hs1 Hn1) H1)
        as (e1 & E1 & L1).
      destruct (IH ltac:(lia) k j x v via3 d3 Hx Hv (Hsmall _ Hs3 Hn3) H3)
        as (e3 & E3 & L3).
      rewrite E1, E3. simpl.
      destruct (nmin_le_r (cell (stage k) i j) (e3 + e1) N1) as (d & -> & Ld).
      exists d. split; [done|]. lra.
    + destruct (IH ltac:(lia) i j u v via d' Hu Hv (Hsmall _ (reflexivity _) Hin) Hw)
        as (e & E & L).
      rewrite E.
      destruct (nmin_le_l e (nadd (cell (stage k) k j) (cell (stage k) i k)))
        as (d & -> & Ld); [by apply nadd_not_nan|].
      exists d. split; [done|]. lra.
Qed.

Lemma stage_symmetric :
  (∀ u v, W u v = W v u) →
  ∀ k, (k ≤ n)%nat → ∀ i j, (i < n)%nat → (j < n)%nat →
    cell (stage k) i j = cell (stage k) j i.
Proof.
  intros Hsym. induction k as [|k IH]; intros Hk i j Hi Hj.
  - simpl. destruct (decide (i = j)) as [->|Hij]; [done|].
    destruct (lookup_lt_is_Some_2 nodes i) as [u Hu]; [lia|].
    destruct (lookup_lt_is_Some_2 nodes j) as [v Hv]; [lia|].
    rewrite (A0_edge i j u v), (A0_edge j i v u) by done. by rewrite Hsym.
  - rewrite !stage_cell by (done || lia).
    rewrite (IH ltac:(lia) j i), (IH ltac:(lia) k i), (IH ltac:(lia) j k) by (done || lia).
    by rewrite nadd_comm.
Qed.

Lemma walk_weight_via_nodes via : ∀ u v d,
  walk_weight W u via v = Some d → via ⊆ nodes.
Proof.
  induction via as [|x via IH]; intros u v d H; [by intros z Hz%elem_of_nil|].
  simpl in H. destruct (W u x) as [w|] eqn:Hw; [simpl in H|done].
  destruct (walk_weight W x via v) as [d'|] eqn:Hd; [|done].
  intros z Hz. apply elem_of_cons in Hz as [->|Hz].
  - by apply W_nodes in Hw as [_ ?].
  - by apply (IH _ _ _ Hd).
Qed.

(** The entries of the final array are the shortest-path distances. *)
Lemma floyd_warshall_shortest i j u v :
  nodes !! i = Some u → nodes !! j = Some v →
  shortest W u v (cell (stage n) i j).
Proof.
  intros Hu Hv.
  pose proof (lookup_lt_Some _ _ _ Hu) as Hi.
  pose proof (lookup_lt_Some _ _ _ Hv) as Hj.
  destruct (stage_sound n ltac:(lia) i j u v Hu Hv) as [Hnan Hsound].
  assert (∀ d', reach W u v d' → ∃ d, cell (stage n) i j = Num d ∧ (d <= d')%Q) as Hmin.
  { intros d' [[-> E]|(via & d0 & Hw & E)].
    - assert (i = j) as -> by (by eapply NoDup_lookup).
      rewrite stage_diag by (done || lia). exists 0%Q. split; [done|]. lra.
    - destruct (stage_complete n ltac:(lia) i j u v via d0 Hu Hv) as (d & Hd & L);
        [|done|].
      + rewrite firstn_all. by eapply walk_weight_via_nodes.
      + exists d. split; [done|]. lra. }
  destruct (cell (stage n) i j) as [d| |] eqn:E; simpl; [|..|done].
  - split; [by apply Hsound|]. intros d' Hr.
    destruct (Hmin d' Hr) as (d0 & [= <-] & L). done.
  - intros d' Hr. by destruct (Hmin d' Hr) as (d0 & ? & _).
Qed.

End floyd_warshall.
(** ** The graph of an edge table *)

Lemma add_edge_adj g u v w : g_adj (add_edge g u v w) = <[(u, v) := w]> (g_adj g).
Proof. unfold add_edge, add_node. simpl. by repeat case_decide. Qed.

Lemma add_node_nodes g u x : x ∈ g_nodes (add_node g u) ↔ x ∈ g_nodes g ∨ x = u.
Proof.
  unfold add_node. case_decide as H; simpl.
  - split; [auto|]. by intros [?| ->].
  - rewrite elem_of_app, list_elem_of_singleton. tauto.
Qed.

Lemma add_node_NoDup g u : NoDup (g_nodes g) → NoDup (g_nodes (add_node g u)).
Proof.
  intros Hnd. unfold add_node. case_decide as H; simpl; [done|].
  apply NoDup_app. split_and!; [done| |apply NoDup_singleton].
  intros x Hx Hxu%list_elem_of_singleton. by subst.
Qed.

Lemma add_edge_nodes g u v w x :
  x ∈ g_nodes (add_edge g u v w) ↔ x ∈ g_nodes g ∨ x = u ∨ x = v.
Proof. unfold add_edge. simpl. rewrite !add_node_nodes. tauto. Qed.

Lemma add_edge_NoDup g u v w : NoDup (g_nodes g) → NoDup (g_nodes (add_edge g u v w)).
Proof. intros H. unfold add_edge. simpl. by do 2 apply add_node_NoDup. Qed.

Lemma build_graph_snoc rows row :
  build_graph (rows ++ [row]) =
    add_edge (add_edge (build_graph rows) row.1.1 row.1.2 row.2) row.1.2 row.1.1 row.2.
Proof. unfold build_graph. by rewrite foldl_app. Qed.

Lemma build_graph_NoDup rows : NoDup (g_nodes (build_graph rows)).
Proof.
  induction rows as [|row rows IH] using rev_ind; [apply NoDup_nil_2|].
  rewrite build_graph_snoc. by do 2 apply add_edge_NoDup.
Qed.

Lemma build_graph_nodes rows x : x ∈ g_nodes (build_graph rows) ↔ x ∈ endpoints rows.
Proof.
  induction rows as [|row rows IH] using rev_ind.
  - unfold endpoints. simpl. done.
  - rewrite build_graph_snoc, !add_edge_nodes, IH. unfold endpoints.
    rewrite bind_app, elem_of_app. simpl.
    rewrite !elem_of_cons, elem_of_nil. tauto.
Qed.

Lemma undirected_weight_snoc rows row u v :
  undirected_weight (rows ++ [row]) u v =
    if decide (row.1 = (u, v) ∨ row.1 = (v, u)) then Some row.2
    else undirected_weight rows u v.
Proof.
  unfold undirected_weight. rewrite filter_app, filter_cons, filter_nil.
  case_decide.
  - by rewrite last_snoc.
  - by rewrite app_nil_r.
Qed.

Lemma build_graph_adj rows u v :
  g_adj (build_graph rows) !! (u, v) = undirected_weight rows u v.
Proof.
  induction rows as [|[[s e] w] rows IH] using rev_ind; [done|].
  rewrite build_graph_snoc, undirected_weight_snoc, !add_edge_adj. simpl.
  rewrite !lookup_insert, IH.
  destruct (decide ((e, s) = (u, v))) as [E1|N1], (decide ((s, e) = (u, v))) as [E2|N2],
    (decide ((s, e) = (u, v) ∨ (s, e) = (v, u))) as [D|D]; try done.
  - destruct D. injection E1 as -> ->. by right.
  - destruct D. injection E1 as -> ->. by right.
  - destruct D. by left.
  - destruct D as [?|[= -> ->]]; done.
Qed.

Lemma undirected_weight_sym rows u v :
  undirected_weight rows u v = undirected_weight rows v u.
Proof.
  unfold undirected_weight. do 2 f_equal.
  apply list_filter_iff. intros row. tauto.
Qed.

Lemma undirected_weight_Some rows u v w :
  undirected_weight rows u v = Some w →
  (u, v, w) ∈ rows ∨ (v, u, w) ∈ rows.
Proof.
  unfold undirected_weight. intros H.
  apply fmap_Some in H as ([[s e] w'] & Hl & ->). simpl.
  apply last_Some in Hl as (l' & Hl).
  assert ((s, e, w') ∈ filter (λ row, row.1 = (u, v) ∨ row.1 = (v, u)) rows) as Hin.
  { rewrite Hl. apply elem_of_app. right. by left. }
  apply list_elem_of_filter in Hin as [[Hk|Hk] Hin]; simpl in Hk; simplify_eq; auto.
Qed.
Lemma initial_array_square g :
  square (length (g_nodes g)) (fill_diagonal (to_numpy_array g PInf) (Num 0)).
Proof.
  unfold fill_diagonal, to_numpy_array. split.
  - by rewrite length_imap, length_fmap.
  - apply Forall_forall. intros row Hrow.
    apply list_elem_of_lookup in Hrow as [i Hrow].
    rewrite list_lookup_imap, list_lookup_fmap in Hrow.
    destruct (g_nodes g !! i) as [u|]; [simpl in Hrow|done]. simplify_eq.
    by rewrite length_insert, length_fmap.
Qed.

Lemma initial_array_cell g i j u v :
  g_nodes g !! i = Some u → g_nodes g !! j = Some v →
  cell (fill_diagonal (to_numpy_array g PInf) (Num 0)) i j =
    if decide (i = j) then Num 0 else default PInf (g_adj g !! (u, v)).
Proof.
  intros Hu Hv. unfold cell, fill_diagonal, to_numpy_array.
  rewrite list_lookup_imap, list_lookup_fmap, Hu. simpl.
  destruct (decide (i = j)) as [->|Hij].
  - rewrite list_lookup_insert_eq; [done|].
    rewrite length_fmap. by eapply lookup_lt_Some.
  - rewrite list_lookup_insert_ne by done. by rewrite list_lookup_fmap, Hv.
Qed.

Lemma m_at_positions nodes A u v i j :
  NoDup nodes → square (length nodes) A →
  nodes !! i = Some u → nodes !! j = Some v →
  m_at (mk_matrix nodes nodes A) u v = Some (cell A i j).
Proof.
  intros Hnd HA Hu Hv. unfold m_at. simpl.
  destruct (get_loc_elem_of nodes u) as [i' Hi']; [by eapply list_elem_of_lookup_2|].
  destruct (get_loc_elem_of nodes v) as [j' Hj']; [by eapply list_elem_of_lookup_2|].
  rewrite Hi', Hj'. simpl. apply get_loc_Some in Hi', Hj'.
  assert (i' = i) as -> by (by eapply NoDup_lookup).
  assert (j' = j) as -> by (by eapply NoDup_lookup).
  destruct (square_cell _ A i j HA) as (row & -> & _ & Hc);
    [by eapply lookup_lt_Some..|]. done.
Qed.

Lemma connection_nonneg rows u v q :
  Forall (λ row, ∃ q, row.2 = Num q ∧ (0 <= q)%Q) rows →
  connection rows u v = Some q → (0 <= q)%Q.
Proof.
  intros Hrows. unfold connection.
  destruct (undirected_weight rows u v) as [[w| |]|] eqn:E; intros H; simplify_eq.
  apply undirected_weight_Some in E as [E|E];
    eapply Forall_forall in E; try exact Hrows; simpl in E;
    destruct E as (q' & [= <-] & ?); done.
Qed.

Lemma connection_endpoints rows u v q :
  connection rows u v = Some q → u ∈ endpoints rows ∧ v ∈ endpoints rows.
Proof.
  unfold connection.
  destruct (undirected_weight rows u v) as [[w| |]|] eqn:E; intros H; simplify_eq.
  unfold endpoints.
  apply undirected_weight_Some in E as [E|E]; split; apply list_elem_of_bind;
    eexists; (split; [|exact E]); simpl; rewrite !elem_of_cons; auto.
Qed.

Lemma connection_finite rows u v :
  Forall (λ row, ∃ q, row.2 = Num q ∧ (0 <= q)%Q) rows →
  default PInf (undirected_weight rows u v) =
    match connection rows u v with Some q => Num q | None => PInf end.
Proof.
  intros Hrows. unfold connection.
  destruct (undirected_weight rows u v) as [w|] eqn:E; [|done]. simpl.
  apply undirected_weight_Some in E as [E|E];
    eapply Forall_forall in E; try exact Hrows; simpl in E;
    destruct E as (q' & -> & ?); done.
Qed.
Lemma calculate_distance_matrix_general df rows :
  edge_rows df = Some rows →
  Forall (λ row, ∃ q, row.2 = Num q ∧ (0 <= q)%Q) rows →
  ∃ M, calculate_distance_matrix df = Some (M, df)
    ∧ m_columns M = m_index M
    ∧ NoDup (m_index M)
    ∧ m_square M
    ∧ (∀ u, u ∈ m_index M ↔ u ∈ endpoints rows)
    ∧ ∀ u v, u ∈ m_index M → v ∈ m_index M →
        (∃ x, m_at M u v = Some x ∧ shortest (connection rows) u v x)
        ∧ m_at M u u = Some (Num 0)
        ∧ m_at M u v = m_at M v u.
Proof.
  intros Hrows Hpos. unfold calculate_distance_matrix. rewrite Hrows. simpl.
  set (g := build_graph rows). set (nodes := g_nodes g).
  set (A0 := fill_diagonal (to_numpy_array g PInf) (Num 0)).
  assert (NoDup nodes) as Hnd by apply build_graph_NoDup.
  assert (square (length nodes) A0) as HA0 by apply initial_array_square.
  assert (length A0 = length nodes) as Hlen by apply HA0.
  assert (∀ i, (i < length nodes)%nat → cell A0 i i = Num 0) as Hdiag.
  { intros i Hi. destruct (lookup_lt_is_Some_2 nodes i Hi) as [u Hu].
    unfold A0. rewrite (initial_array_cell g i i u u) by done. by rewrite decide_True. }
  assert (∀ i j u v, i ≠ j → nodes !! i = Some u → nodes !! j = Some v →
            cell A0 i j = match connection rows u v with
                          | Some q => Num q | None => PInf end) as Hedge.
  { intros i j u v Hij Hu Hv. unfold A0.
    rewrite (initial_array_cell g i j u v) by done. rewrite decide_False by done.
    unfold g. rewrite build_graph_adj. by apply connection_finite. }
  assert (∀ u v q, connection rows u v = Some q → u ∈ nodes ∧ v ∈ nodes) as Hwn.
  { intros u v q H. unfold nodes, g. rewrite !build_graph_nodes.
    by eapply connection_endpoints. }
  pose proof (connection_nonneg rows) as Hnn.
  assert (∀ u v, connection rows u v = connection rows v u) as Hsym.
  { intros u v. unfold connection. by rewrite undirected_weight_sym. }
  unfold floyd_warshall_numpy. fold A0. rewrite Hlen.
  set (A := foldl relax A0 (seq 0 (length nodes))).
  assert (square (length nodes) A) as HA by (by apply foldl_relax_square).
  eexists. split; [reflexivity|]. simpl.
  split; [done|]. split; [done|].
  split; [split; [split; simpl; apply HA|done]|].
  split; [intros u; apply build_graph_nodes|].
  intros u v Hu Hv.
  apply list_elem_of_lookup in Hu as [i Hi], Hv as [j Hj].
  pose proof (lookup_lt_Some _ _ _ Hi) as Hi'.
  pose proof (lookup_lt_Some _ _ _ Hj) as Hj'.
  rewrite (m_at_positions nodes A u v i j), (m_at_positions nodes A u u i i),
    (m_at_positions nodes A v u j i) by done.
  split_and!.
  - eexists. split; [done|].
    apply (floyd_warshall_shortest nodes (connection rows) A0); eauto.
  - f_equal. apply (stage_diag nodes (connection rows) A0); eauto.
  - f_equal. apply (stage_symmetric nodes (connection rows) A0); eauto.
Qed.
Lemma add_edge_g_nodes g u v w l :
  g_nodes g = l →
  g_nodes (add_edge g u v w) =
    let l1 := if decide (u ∈ l) then l else l ++ [u] in
    if decide (v ∈ l1) then l1 else l1 ++ [v].
Proof.
  intros <-. unfold add_edge, add_node. cbn [g_nodes].
  destruct (decide (u ∈ g_nodes g)); cbn [g_nodes g_adj];
    destruct (decide (v ∈ _)); reflexivity.
Qed.

Lemma chain_graph A B C :
  A ≠ B → B ≠ C → A ≠ C →
  g_nodes (build_graph [(A, B, Num 5); (B, C, Num 5)]) = [A; B; C].
Proof.
  intros HAB HBC HAC. unfold build_graph. cbn [foldl fst snd].
  assert (g_nodes (add_edge empty_graph A B (Num 5)) = [A; B]) as H1.
  { rewrite (add_edge_g_nodes _ _ _ _ []) by done. cbn zeta.
    rewrite (decide_False (P := A ∈ [])) by (set_unfold; tauto). cbn [app].
    by rewrite decide_False by (set_unfold; intuition congruence). }
  assert (g_nodes (add_edge (add_edge empty_graph A B (Num 5)) B A (Num 5)) = [A; B])
    as H2.
  { rewrite (add_edge_g_nodes _ _ _ _ [A; B]) by done. cbn zeta.
    rewrite (decide_True (P := B ∈ [A; B])) by (set_unfold; tauto).
    by rewrite decide_True by (set_unfold; tauto). }
  assert (g_nodes (add_edge (add_edge (add_edge empty_graph A B (Num 5)) B A (Num 5))
                     B C (Num 5)) = [A; B; C]) as H3.
  { rewrite (add_edge_g_nodes _ _ _ _ [A; B]) by done. cbn zeta.
    rewrite (decide_True (P := B ∈ [A; B])) by (set_unfold; tauto).
    by rewrite decide_False by (set_unfold; intuition congruence). }
  rewrite (add_edge_g_nodes _ _ _ _ [A; B; C]) by done. cbn zeta.
  rewrite (decide_True (P := C ∈ [A; B; C])) by (set_unfold; tauto).
  by rewrite decide_True by (set_unfold; tauto).
Qed.

Lemma chain_weights A B C :
  A ≠ B → B ≠ C → A ≠ C →
  let W := undirected_weight [(A, B, Num 5); (B, C, Num 5)] in
  W A B = Some (Num 5) ∧ W B A = Some (Num 5)
  ∧ W B C = Some (Num 5) ∧ W C B = Some (Num 5)
  ∧ W A C = None ∧ W C A = None.
Proof.
  intros HAB HBC HAC. cbn zeta. unfold undirected_weight.
  rewrite !filter_cons, !filter_nil. cbn [fst snd].
  split_and!;
    repeat (first [ rewrite decide_True by (intuition congruence)
                  | rewrite decide_False by (intuition congruence) ]);
    reflexivity.
Qed.

Lemma chain_initial_array A B C :
  A ≠ B → B ≠ C → A ≠ C →
  fill_diagonal (to_numpy_array (build_graph [(A, B, Num 5); (B, C, Num 5)]) PInf) (Num 0)
  = [[Num 0; Num 5; PInf]; [Num 5; Num 0; Num 5]; [PInf; Num 5; Num 0]].
Proof.
  intros HAB HBC HAC. unfold to_numpy_array.
  rewrite chain_graph by done.
  destruct (chain_weights A B C HAB HBC HAC) as (E1 & E2 & E3 & E4 & E5 & E6).
  generalize (build_graph_adj [(A, B, Num 5); (B, C, Num 5)]).
  generalize (build_graph [(A, B, Num 5); (B, C, Num 5)]). intros g Hg.
  cbn. rewrite !Hg, E1, E2, E3, E4, E5, E6. reflexivity.
Qed.

Lemma chain_matrix A B C :
  A ≠ B → B ≠ C → A ≠ C →
  calculate_distance_matrix (chain_table A B C) =
    Some (mk_matrix [A; B; C] [A; B; C]
            [[Num 0; Num 5; Num 10]; [Num 5; Num 0; Num 5]; [Num 10; Num 5; Num 0]],
          chain_table A B C).
Proof.
  intros HAB HBC HAC. unfold calculate_distance_matrix.
  change (edge_rows (chain_table A B C)) with (Some [(A, B, Num 5); (B, C, Num 5)]).
  cbn [mbind option_bind]. unfold floyd_warshall_numpy.
  rewrite chain_graph, chain_initial_array by done. reflexivity.
Qed.


(** With a negative distance the relaxation walks back and forth over the
    edge: the diagonal is not 0. *)
Lemma negative_edge_diagonal :
  ∃ M, calculate_distance_matrix negative_edge_table = Some (M, negative_edge_table)
    ∧ m_at M 1 1 = Some (Num (-2)).
Proof. eexists. split; [vm_compute; reflexivity|]. reflexivity. Qed.
(** ** Mask selection *)

Lemma mask_list_cons {A} b mask (x : A) l :
  mask_list (b :: mask) (x :: l) =
    if b then x :: mask_list mask l else mask_list mask l.
Proof.
  unfold mask_list. cbn [zip zip_with]. rewrite filter_cons. by destruct b.
Qed.

Lemma mask_list_proj {A B} (keep : A → bool) (proj : A → B) (rows : list A) :
  mask_list (keep <$> rows) (proj <$> rows) = proj <$> filter (λ r, keep r) rows.
Proof.
  induction rows as [|r rows IH]; [done|].
  rewrite !fmap_cons, mask_list_cons, filter_cons, IH.
  by destruct (keep r).
Qed.

Lemma zip_with_proj {A B C D} (f : B → C → D) (g : A → B) (h : A → C) (l : list A) :
  zip_with f (g <$> l) (h <$> l) = (λ x, f (g x) (h x)) <$> l.
Proof. induction l as [|x l IH]; [done|]. rewrite !fmap_cons. simpl. by rewrite IH. Qed.

Lemma mask_list_fmap {A B} (f : A → B) mask (l : list A) :
  mask_list mask (f <$> l) = f <$> mask_list mask l.
Proof.
  revert mask. induction l as [|x l IH]; intros [|b mask]; try done.
  rewrite fmap_cons, !mask_list_cons, IH. by destruct b.
Qed.

Lemma assoc_fmap {A B} (f : A → B) name (cs : list (string * A)) :
  assoc name ((λ nc, (nc.1, f nc.2)) <$> cs) = f <$> assoc name cs.
Proof.
  induction cs as [|[n c] cs IH]; [done|]. csimpl. by case_decide.
Qed.

Lemma get_column_select mask df name :
  get_column (select_rows mask df) name = column_select mask <$> get_column df name.
Proof. unfold get_column, select_rows. simpl. apply assoc_fmap. Qed.

Lemma int_column_select mask df name :
  int_column (select_rows mask df) name = mask_list mask <$> int_column df name.
Proof.
  unfold int_column. rewrite get_column_select.
  by destruct (get_column df name) as [[]|].
Qed.

Lemma num_column_select mask df name :
  num_column (select_rows mask df) name = mask_list mask <$> num_column df name.
Proof.
  unfold num_column. rewrite get_column_select.
  destruct (get_column df name) as [[]|]; simpl; try done.
  by rewrite mask_list_fmap.
Qed.

Lemma assoc_elem_of {A} name (cs : list (string * A)) c :
  assoc name cs = Some c → (name, c) ∈ cs.
Proof.
  induction cs as [|[n c'] cs IH]; [done|]. simpl.
  case_decide; intros Hc; simplify_eq; [by left|right; auto].
Qed.

Lemma df_wf_column df name c :
  df_wf df → get_column df name = Some c → column_length c = length (df_index df).
Proof.
  intros Hwf Hc. apply assoc_elem_of in Hc.
  eapply Forall_forall in Hwf; [|exact Hc]. done.
Qed.

Lemma int_column_length df name xs :
  df_wf df → int_column df name = Some xs → length xs = length (df_index df).
Proof.
  unfold int_column. intros Hwf H.
  destruct (get_column df name) as [[]|] eqn:E; simplify_eq.
  by apply (df_wf_column df name _ Hwf E).
Qed.

Lemma num_column_length df name xs :
  df_wf df → num_column df name = Some xs → length xs = length (df_index df).
Proof.
  unfold num_column. intros Hwf H.
  destruct (get_column df name) as [[]|] eqn:E; simplify_eq;
    apply (df_wf_column df name _ Hwf) in E; simpl in E; by rewrite ?length_fmap.
Qed.

Lemma edge_rows_columns df rows :
  df_wf df → edge_rows df = Some rows →
  int_column df "id_start" = Some rows.*1.*1
  ∧ int_column df "id_end" = Some rows.*1.*2
  ∧ num_column df "distance" = Some rows.*2.
Proof.
  intros Hwf. unfold edge_rows. intros H.
  destruct (int_column df "id_start") as [ss|] eqn:Es; [simpl in H|done].
  destruct (int_column df "id_end") as [es|] eqn:Ee; [simpl in H|done].
  destruct (num_column df "distance") as [ds|] eqn:Ed; [simpl in H|done].
  apply (int_column_length _ _ _ Hwf) in Es, Ee.
  apply (num_column_length _ _ _ Hwf) in Ed.
  injection H as <-.
  rewrite snd_zip by (rewrite length_zip; lia).
  rewrite !fst_zip by (rewrite ?length_zip; lia).
  by rewrite snd_zip by lia.
Qed.

Lemma zip_projections (rows : list (Z * Z * number)) :
  zip (zip rows.*1.*1 rows.*1.*2) rows.*2 = rows.
Proof. induction rows as [|[[s e] d] rows IH]; [done|]. csimpl. by rewrite IH. Qed.

Lemma edge_rows_select df rows (keep : Z * Z * number → bool) :
  df_wf df → edge_rows df = Some rows →
  edge_rows (select_rows (keep <$> rows) df) = Some (filter (λ row, keep row) rows).
Proof.
  intros Hwf Hrows.
  destruct (edge_rows_columns df rows Hwf Hrows) as (Hs & He & Hd).
  unfold edge_rows. rewrite !int_column_select, num_column_select, Hs, He, Hd. simpl.
  rewrite <- !list_fmap_compose.
  rewrite !(mask_list_proj keep). f_equal.
  rewrite !list_fmap_compose. apply zip_projections.
Qed.
Lemma nsum_Num qs : nsum (Num <$> qs) = Num (Qsum qs).
Proof.
  unfold nsum, Qsum. induction qs as [|q qs IH]; [done|].
  rewrite fmap_cons. simpl. by rewrite IH.
Qed.

Lemma mean_Num qs :
  qs ≠ [] →
  mean (Num <$> qs) = Num (1 / inject_Z (Z.of_nat (length qs)) * Qsum qs).
Proof.
  intros Hne. unfold mean.
  assert (filter (λ x, is_nan x = false) (Num <$> qs) = Num <$> qs) as ->.
  { clear Hne. induction qs as [|q qs IH]; [done|].
    rewrite fmap_cons, filter_cons_True by done. by rewrite IH. }
  rewrite length_fmap, nsum_Num. destruct qs; [done|]. done.
Qed.

Lemma reference_column rows reference_id :
  Forall (λ row, ∃ q, row.2 = Num q) rows →
  mask_list ((λ s, bool_decide (s = reference_id)) <$> rows.*1.*1) rows.*2
  = Num <$> reference_distances rows reference_id.
Proof.
  unfold reference_distances. induction 1 as [|[[s e] d] rows (q & Hq) _ IH]; [done|].
  simpl in Hq. subst d. rewrite !fmap_cons, mask_list_cons, IH. csimpl.
  destruct (decide (s = reference_id)) as [->|Hne].
  - by rewrite bool_decide_eq_true_2.
  - by rewrite bool_decide_eq_false_2.
Qed.

Lemma reference_distances_nonempty rows reference_id row :
  Forall (λ row, ∃ q, row.2 = Num q) rows →
  row ∈ rows → row.1.1 = reference_id →
  reference_distances rows reference_id ≠ [].
Proof.
  intros Hfin Hin Href E. unfold reference_distances in E.
  eapply Forall_forall in Hfin; [|exact Hin]. destruct Hfin as (q & Hq).
  assert (q ∈ @nil Q) as Hq'; [|by apply elem_of_nil in Hq'].
  rewrite <- E. apply list_elem_of_bind. exists row. split; [|done].
  rewrite Hq, decide_True by done. by left.
Qed.

Lemma reference_rows_column rows (reference_id : Z) :
  mask_list ((λ s, bool_decide (s = reference_id)) <$> rows.*1.*1) rows.*2
  = (filter (λ row : Z * Z * number, row.1.1 = reference_id) rows).*2.
Proof.
  induction rows as [|[[s e] d] rows IH]; [done|].
  rewrite !fmap_cons, mask_list_cons, IH, filter_cons. cbn [fst snd].
  destruct (decide (s = reference_id)) as [->|Hne].
  - by rewrite bool_decide_eq_true_2.
  - by rewrite bool_decide_eq_false_2.
Qed.

Lemma find_ids_rows df reference_id rows :
  df_wf df → edge_rows df = Some rows →
  let a := mean (filter (λ row : Z * Z * number, row.1.1 = reference_id) rows).*2 in
  ∃ result,
    find_ids_within_ten_percentage_threshold df reference_id = Some (result, df)
    ∧ edge_rows result
      = Some (filter (λ row : Z * Z * number,
                        row.1.1 ≠ reference_id
                        ∧ nle (nscale (9 # 10) a) row.2
                        ∧ nle row.2 (nscale (11 # 10) a)) rows).
Proof.
  intros Hwf Hrows a.
  destruct (edge_rows_columns df rows Hwf Hrows) as (Hs & He & Hd).
  set (keep := λ row : Z * Z * number,
         bool_decide (row.1.1 ≠ reference_id)
         && nle (nscale (9 # 10) a) row.2 && nle row.2 (nscale (11 # 10) a)).
  exists (select_rows (keep <$> rows) df). split.
  - unfold find_ids_within_ten_percentage_threshold. rewrite Hs, Hd.
    cbn [mbind option_bind]. rewrite reference_rows_column. fold a.
    assert (rows.*1.*1 = (λ row, row.1.1) <$> rows) as ->
      by (by rewrite <- list_fmap_compose).
    by rewrite zip_with_proj.
  - rewrite (edge_rows_select df rows keep Hwf Hrows). f_equal.
    apply list_filter_iff. intros row. unfold keep.
    rewrite !andb_True, bool_decide_spec. tauto.
Qed.

Lemma find_ids_general df reference_id rows :
  df_wf df → edge_rows df = Some rows →
  Forall (λ row, ∃ q, row.2 = Num q) rows →
  (∃ row, row ∈ rows ∧ row.1.1 = reference_id) →
  ∃ result a (keep : Z * Z * number → bool),
    find_ids_within_ten_percentage_threshold df reference_id = Some (result, df)
    ∧ Qeq a (Qsum (reference_distances rows reference_id)
             / inject_Z (Z.of_nat (length (reference_distances rows reference_id))))
    ∧ edge_rows result = Some (filter (λ row, keep row) rows)
    ∧ (∀ s e d, keep (s, e, Num d) = true ↔
         s ≠ reference_id ∧ ((9 # 10) * a <= d)%Q ∧ (d <= (11 # 10) * a)%Q)
    ∧ (∀ row, row ∈ filter (λ row, keep row) rows → row.1.1 ≠ reference_id).
Proof.
  intros Hwf Hrows Hfin (row0 & Hin0 & Href0).
  destruct (edge_rows_columns df rows Hwf Hrows) as (Hs & He & Hd).
  set (qs := reference_distances rows reference_id).
  set (a := (1 / inject_Z (Z.of_nat (length qs)) * Qsum qs)%Q).
  set (keep := λ row : Z * Z * number,
         bool_decide (row.1.1 ≠ reference_id)
         && nle (Num ((9 # 10) * a)) row.2 && nle row.2 (Num ((11 # 10) * a))).
  assert (find_ids_within_ten_percentage_threshold df reference_id
          = Some (select_rows (keep <$> rows) df, df)) as Hcall.
  { unfold find_ids_within_ten_percentage_threshold. rewrite Hs, Hd.
    cbn [mbind option_bind].
    rewrite (reference_column _ _ Hfin).
    rewrite mean_Num by (by eapply reference_distances_nonempty).
    fold qs a. cbn [nscale].
    assert (rows.*1.*1 = (λ row, row.1.1) <$> rows) as ->
      by (by rewrite <- list_fmap_compose).
    by rewrite zip_with_proj. }
  exists (select_rows (keep <$> rows) df), a, keep. split; [done|].
  split; [unfold a, Qdiv; ring|].
  split; [by apply edge_rows_select|].
  split.
  - intros s e d. unfold keep. simpl.
    rewrite !andb_true_iff, bool_decide_eq_true, !Qle_bool_iff. tauto.
  - intros row Hrow. apply list_elem_of_filter in Hrow as [Hk _].
    unfold keep in Hk. apply Is_true_true in Hk.
    rewrite !andb_true_iff, bool_decide_eq_true in Hk. tauto.
Qed.


(** ** Column assignment *)

Lemma get_column_set_eq df name c : get_column (set_column df name c) name = Some c.
Proof. apply assoc_assign_eq. Qed.

Lemma get_column_set_ne df name name' c :
  name ≠ name' → get_column (set_column df name c) name' = get_column df name'.
Proof. apply assoc_assign_ne. Qed.

Lemma int_column_set_ne df name name' c :
  name ≠ name' → int_column (set_column df name c) name' = int_column df name'.
Proof. intros H. unfold int_column. by rewrite get_column_set_ne. Qed.

Lemma str_column_set_ne df name name' c :
  name ≠ name' → str_column (set_column df name c) name' = str_column df name'.
Proof. intros H. unfold str_column. by rewrite get_column_set_ne. Qed.

Lemma num_column_set_ne df name name' c :
  name ≠ name' → num_column (set_column df name c) name' = num_column df name'.
Proof. intros H. unfold num_column. by rewrite get_column_set_ne. Qed.

Lemma stamp_column_set_ne df name name' c :
  name ≠ name' → stamp_column (set_column df name c) name' = stamp_column df name'.
Proof. intros H. unfold stamp_column. by rewrite get_column_set_ne. Qed.

Lemma time_column_set_ne df name name' c :
  name ≠ name' → time_column (set_column df name c) name' = time_column df name'.
Proof. intros H. unfold time_column. by rewrite get_column_set_ne. Qed.

Lemma str_column_select mask df name :
  str_column (select_rows mask df) name = mask_list mask <$> str_column df name.
Proof.
  unfold str_column. rewrite get_column_select.
  by destruct (get_column df name) as [[]|].
Qed.

Lemma time_column_select mask df name :
  time_column (select_rows mask df) name = mask_list mask <$> time_column df name.
Proof.
  unfold time_column. rewrite get_column_select.
  by destruct (get_column df name) as [[]|].
Qed.

Lemma mask_list_keys {K A} (f : K → bool) (keys : list K) (xs : list A) :
  mask_list (f <$> keys) xs = (filter (λ p, f p.1) (zip keys xs)).*2.
Proof.
  revert xs. induction keys as [|k keys IH]; intros [|x xs]; try done.
  rewrite fmap_cons, mask_list_cons, IH. cbn [zip zip_with].
  rewrite filter_cons. simpl. by destruct (f k).
Qed.

(** ** The seconds of a day *)

Lemma elem_of_all_day_times t :
  t ∈ all_day_times ↔
    (hour t < 24)%N ∧ (minute t < 60)%N ∧ (second t < 60)%N ∧ microsecond t = 0%N.
Proof.
  unfold all_day_times. split.
  - intros H. apply list_elem_of_bind in H as (h & H & Hh).
    apply list_elem_of_bind in H as (m & H & Hm).
    apply list_elem_of_bind in H as (s & H & Hs).
    apply list_elem_of_singleton in H. subst t. cbn [hour minute second microsecond].
    apply elem_of_seq in Hh, Hm, Hs. lia.
  - destruct t as [h m s us]. cbn [hour minute second microsecond].
    intros (Hh & Hm & Hs & ->).
    apply list_elem_of_bind. exists (N.to_nat h). split; [|apply elem_of_seq; lia].
    apply list_elem_of_bind. exists (N.to_nat m). split; [|apply elem_of_seq; lia].
    apply list_elem_of_bind. exists (N.to_nat s). split; [|apply elem_of_seq; lia].
    rewrite !N2Nat.id. by left.
Qed.

Lemma all_day_times_count : Z.of_nat (length all_day_times) = 86400.
Proof. vm_compute. reflexivity. Qed.

Lemma NoDup_all_day_times : NoDup all_day_times.
Proof.
  unfold all_day_times. apply NoDup_bind; [| |apply NoDup_seq].
  - intros h1 h2 t _ _ H1 H2.
    apply list_elem_of_bind in H1 as (m1 & H1 & _), H2 as (m2 & H2 & _).
    apply list_elem_of_bind in H1 as (s1 & H1 & _), H2 as (s2 & H2 & _).
    apply list_elem_of_singleton in H1, H2. subst t. injection H2. lia.
  - intros h _. apply NoDup_bind; [| |apply NoDup_seq].
    + intros m1 m2 t _ _ H1 H2.
      apply list_elem_of_bind in H1 as (s1 & H1 & _), H2 as (s2 & H2 & _).
      apply list_elem_of_singleton in H1, H2. subst t. injection H2. lia.
    + intros m _. apply NoDup_bind; [| |apply NoDup_seq].
      * intros s1 s2 t _ _ H1 H2.
        apply list_elem_of_singleton in H1, H2. subst t. injection H2. lia.
      * intros s _. apply NoDup_singleton.
Qed.
Lemma elem_of_sorted_keys keys key : key ∈ sorted_keys keys ↔ key ∈ keys.
Proof.
  unfold sorted_keys. rewrite merge_sort_Permutation. apply elem_of_remove_dups.
Qed.

Lemma NoDup_sorted_keys keys : NoDup (sorted_keys keys).
Proof.
  unfold sorted_keys. rewrite merge_sort_Permutation. apply NoDup_remove_dups.
Qed.

Lemma set_eqb_true `{EqDecision A} (l1 l2 : list A) :
  set_eqb l1 l2 = true ↔ ∀ x, x ∈ l1 ↔ x ∈ l2.
Proof.
  unfold set_eqb. rewrite andb_true_iff, !bool_decide_eq_true.
  split; [intros [H1 H2] x; split; auto|].
  intros Hx. split; intros x; apply Hx.
Qed.

Lemma check_timestamp_completeness_group keys key df days times :
  str_column df "start_day" = Some days →
  time_column df "start_time" = Some times →
  ∃ b, check_timestamp_completeness (group_of keys key df) = Some b
    ∧ (b = true ↔
         (∀ d, d ∈ (filter (λ p, p.1 = key) (zip keys days)).*2 ↔ d ∈ Some <$> day_names)
         ∧ (∀ t, t ∈ (filter (λ p, p.1 = key) (zip keys times)).*2
                 ↔ t ∈ Some <$> all_day_times)).
Proof.
  intros Hd Ht. unfold check_timestamp_completeness, group_of.
  rewrite str_column_select, time_column_select, Hd, Ht. cbn [fmap option_fmap option_map mbind option_bind].
  eexists. split; [reflexivity|].
  rewrite andb_true_iff, !set_eqb_true.
  rewrite !(mask_list_keys (λ k, bool_decide (k = key))).
  assert (∀ {A} (xs : list A),
            filter (λ p : Z * Z * A, bool_decide (p.1 = key)) (zip keys xs)
            = filter (λ p, p.1 = key) (zip keys xs)) as E.
  { intros A xs. apply list_filter_iff. intros p.
    split; [apply bool_decide_unpack|apply bool_decide_pack]. }
  by rewrite !E.
Qed.
Lemma group_stamps_fmap {B} (f : option Timestamp → B) keys stamps key :
  (filter (λ p, p.1 = key) (zip keys (f <$> stamps))).*2
  = f <$> group_stamps keys stamps key.
Proof.
  unfold group_stamps. revert stamps.
  induction keys as [|k keys IH]; intros [|x xs]; try done.
  rewrite fmap_cons. cbn [zip zip_with]. rewrite !filter_cons. cbn [fst].
  case_decide; rewrite ?fmap_cons; cbn [snd]; by rewrite IH.
Qed.

Lemma stamp_column_set_eq df name stamps :
  stamp_column (set_column df name (StampCol stamps)) name = Some stamps.
Proof. unfold stamp_column. by rewrite get_column_set_eq. Qed.

Lemma str_column_set_eq df name xs :
  str_column (set_column df name (StrCol xs)) name = Some xs.
Proof. unfold str_column. by rewrite get_column_set_eq. Qed.

Lemma time_column_set_eq df name xs :
  time_column (set_column df name (TimeCol xs)) name = Some xs.
Proof. unfold time_column. by rewrite get_column_set_eq. Qed.

Lemma apply_groups_Some keys df (f : DataFrame → option bool) :
  (∀ key, is_Some (f (group_of keys key df))) →
  ∃ series, apply_groups keys df f = Some series
    ∧ series.*1 = sorted_keys keys
    ∧ ∀ key b, (key, b) ∈ series → f (group_of keys key df) = Some b.
Proof.
  intros Hf. unfold apply_groups.
  destruct (mapM_is_Some_2
              (λ key : Z * Z, b ← f (group_of keys key df); Some (key, b))
              (sorted_keys keys)) as [series Hs].
  { apply Forall_forall. intros key _. simpl. by destruct (Hf key) as [b ->]. }
  exists series. split; [done|].
  apply mapM_Some_1 in Hs. induction Hs as [|k [k' b] l series Hk _ IH].
  - split; [done|]. by intros key b H%elem_of_nil.
  - destruct IH as [IH1 IH2].
    destruct (f (group_of keys k df)) as [b'|] eqn:E; [|done].
    injection Hk as <- <-. split; [by rewrite fmap_cons, IH1|].
    intros key b0 [[= -> ->]|Hin]%elem_of_cons; [done|by apply IH2].
Qed.

Lemma time_check_general to_datetime df ids ids2 sd st ed et :
  int_column df "id" = Some ids → int_column df "id_2" = Some ids2 →
  str_column df "startDay" = Some sd → str_column df "startTime" = Some st →
  str_column df "endDay" = Some ed → str_column df "endTime" = Some et →
  let keys := zip ids ids2 in
  let stamps := parse_column to_datetime sd st in
  ∃ series df', time_check to_datetime df = Some (series, df')
    ∧ NoDup series.*1
    ∧ (∀ key, key ∈ series.*1 ↔ key ∈ keys)
    ∧ ∀ key b, (key, b) ∈ series →
        let group := group_stamps keys stamps key in
        (b = true ↔
           (∀ d, d ∈ stamp_days group ↔ d ∈ Some <$> day_names)
           ∧ (∀ t, t ∈ stamp_times group ↔ t ∈ Some <$> all_day_times))
        ∧ ((∃ t, t ∈ all_day_times ∧ Some t ∉ stamp_times group) → b = false).
Proof.
  intros Hid Hid2 Hsd Hst Hed Het keys stamps. unfold time_check.
  rewrite Hsd, Hst. cbn [mbind option_bind]. fold stamps.
  rewrite !str_column_set_ne, Hed, Het by done. cbn [mbind option_bind].
  rewrite stamp_column_set_ne, stamp_column_set_eq by done. cbn [mbind option_bind].
  rewrite !stamp_column_set_ne, stamp_column_set_eq by done. cbn [mbind option_bind].
  rewrite !int_column_set_ne, Hid, Hid2 by done. cbn [mbind option_bind]. fold keys.
  set (df4 := set_column _ "start_time" _).
  assert (str_column df4 "start_day" = Some (stamp_days stamps)) as Hdays.
  { unfold df4. rewrite str_column_set_ne by done. apply str_column_set_eq. }
  assert (time_column df4 "start_time" = Some (stamp_times stamps)) as Htimes.
  { unfold df4. apply time_column_set_eq. }
  assert (∀ key, ∃ b, check_timestamp_completeness (group_of keys key df4) = Some b
            ∧ (b = true ↔
                 (∀ d, d ∈ stamp_days (group_stamps keys stamps key) ↔ d ∈ Some <$> day_names)
                 ∧ (∀ t, t ∈ stamp_times (group_stamps keys stamps key)
                         ↔ t ∈ Some <$> all_day_times))) as Hchk.
  { intros key.
    destruct (check_timestamp_completeness_group keys key df4 _ _ Hdays Htimes)
      as (b & Hb & Hiff).
    exists b. split; [done|]. rewrite Hiff. unfold stamp_days, stamp_times.
    by rewrite !group_stamps_fmap. }
  destruct (apply_groups_Some keys df4 check_timestamp_completeness)
    as (series & Hser & Hfst & Hin).
  { intros key. destruct (Hchk key) as (b & -> & _). eauto. }
  rewrite Hser. cbn [mbind option_bind].
  exists series, df4. split; [done|].
  split; [rewrite Hfst; apply NoDup_sorted_keys|].
  split; [intros key; rewrite Hfst; apply elem_of_sorted_keys|].
  intros key b Hb. apply Hin in Hb.
  destruct (Hchk key) as (b' & Hb' & Hiff). simplify_eq. cbn zeta.
  split; [done|].
  intros (t & Ht & Hmiss). destruct b; [|done]. exfalso.
  apply Hmiss. apply Hiff; [done|]. apply list_elem_of_fmap. eauto.
Qed.

(** C4 (code at fault): called on a Wednesday for the single pair (1, 2)
    with distance 10, [calculate_time_based_toll_rates] still emits 17
    rows, but the three sub-window rows (factors 0.8, 1.2, 0.8) go to the
    first five days counted from the current date, so Saturday gets three
    sub-windows and Monday one whole-day row with factor 0.7. *)
Theorem toll_rates_called_on_wednesday :
  ∃ rows,
    calculate_time_based_toll_rates a_wednesday single_pair_table
      = Some (rows, single_pair_table)
    ∧ weekday_of_ordinal a_wednesday = Wednesday
    ∧ length rows = 17%nat
    ∧ (λ w, (w_start_time w, w_end_time w, w_distance w))
        <$> filter (λ w, w_start_day w = "Saturday") rows
      = [(mk_time 0 0 0 0, mk_time 10 0 0 0, Num (80 # 10));
         (mk_time 10 0 0 0, mk_time 18 0 0 0, Num (120 # 10));
         (mk_time 18 0 0 0, mk_time 23 59 59 0, Num (80 # 10))]
    ∧ (λ w, (w_start_time w, w_end_time w, w_distance w))
        <$> filter (λ w, w_start_day w = "Monday") rows
      = [(mk_time 0 0 0 0, mk_time 23 59 59 0, Num (70 # 10))].
Proof.
  eexists. split; [vm_compute; reflexivity|].
  split; [reflexivity|]. split; [reflexivity|].
  split; vm_compute; reflexivity.
Qed.

(** C5 (code at fault): the same table gives different results on a
    Monday and on a Wednesday, because the rows are built from
    [datetime.today()]. *)
Theorem toll_rates_depend_on_the_date :
  weekday_of_ordinal a_monday = Monday
  ∧ weekday_of_ordinal a_wednesday = Wednesday
  ∧ calculate_time_based_toll_rates a_monday single_pair_table
    ≠ calculate_time_based_toll_rates a_wednesday single_pair_table.
Proof.
  split; [reflexivity|]. split; [reflexivity|].
  intros H. vm_compute in H. discriminate H.
Qed.
(** ** Effects on the caller's table *)

Lemma only_assigns_refl names df : only_assigns names df df.
Proof. by split. Qed.

Lemma only_assigns_set names df df' name c :
  name ∈ names → only_assigns names df df' →
  only_assigns names df (set_column df' name c).
Proof.
  intros Hin [Hidx Hcols]. split; [done|].
  intros name' Hn. rewrite get_column_set_ne by (by intros ->). by apply Hcols.
Qed.

Lemma bind_Some_inv {A B} (m : option A) (f : A → option B) y :
  m ≫= f = Some y → ∃ x, m = Some x ∧ f x = Some y.
Proof. destruct m as [x|]; [eauto|done]. Qed.

Ltac inv_binds :=
  repeat match goal with
         | H : _ ≫= _ = Some _ |- _ =>
             apply bind_Some_inv in H as (? & ? & H); cbn beta zeta in H
         | H : Some _ = Some _ |- _ => injection H as H; subst
         end.

Lemma get_type_count_frame df r df' :
  get_type_count df = Some (r, df') → only_assigns ["car_type"] df df'.
Proof.
  unfold get_type_count. intros H. inv_binds. simplify_eq.
  apply only_assigns_set; [by left|apply only_assigns_refl].
Qed.

Lemma time_check_frame to_datetime df r df' :
  time_check to_datetime df = Some (r, df') →
  only_assigns ["start_timestamp"; "end_timestamp"; "start_day"; "start_time"] df df'.
Proof.
  unfold time_check. intros H. inv_binds. simplify_eq.
  repeat (apply only_assigns_set; [set_unfold; tauto|]). apply only_assigns_refl.
Qed.

Lemma only_assigns_trans names df1 df2 df3 :
  only_assigns names df1 df2 → only_assigns names df2 df3 →
  only_assigns names df1 df3.
Proof.
  intros [I1 C1] [I2 C2]. split; [congruence|].
  intros name Hn. rewrite C2, C1; done.
Qed.

Lemma assign_rate_frame names df rate df' :
  rate.1 ∈ names → assign_rate df rate = Some df' → only_assigns names df df'.
Proof.
  unfold assign_rate. intros Hin H. inv_binds. simplify_eq.
  apply only_assigns_set; [done|apply only_assigns_refl].
Qed.

Lemma rates_frame names rates : ∀ df df',
  Forall (λ rate, rate.1 ∈ names) rates →
  foldl (λ acc rate, df ← acc; assign_rate df rate) (Some df) rates = Some df' →
  only_assigns names df df'.
Proof.
  induction rates as [|rate rates IH] using rev_ind; intros df df' Hall H.
  - simpl in H. simplify_eq. apply only_assigns_refl.
  - rewrite foldl_app in H. simpl in H.
    apply bind_Some_inv in H as (df1 & H1 & H2).
    apply Forall_app in Hall as [Hall Hrate].
    apply Forall_cons in Hrate as [Hrate _].
    eapply only_assigns_trans; [by apply IH|by eapply assign_rate_frame].
Qed.

Lemma calculate_toll_rate_frame df r df' :
  calculate_toll_rate df = Some (r, df') →
  r = df' ∧ only_assigns ["moto"; "car"; "rv"; "bus"; "truck"] df df'.
Proof.
  unfold calculate_toll_rate. intros H.
  apply bind_Some_inv in H as (df1 & H1 & H2). simplify_eq. split; [done|].
  eapply rates_frame; [|exact H1].
  unfold rate_coefficients. repeat constructor; simpl; set_unfold; tauto.
Qed.
(** C7 fails as stated: after [calculate_toll_rate] the caller's table
    has five more columns than before (the function returns that same
    table). *)
Lemma calculate_toll_rate_modifies_input :
  ∃ r df',
    calculate_toll_rate single_pair_table = Some (r, df')
    ∧ column_names single_pair_table = ["id_start"; "id_end"; "distance"]
    ∧ column_names df'
      = ["id_start"; "id_end"; "distance"; "moto"; "car"; "rv"; "bus"; "truck"]
    ∧ df' ≠ single_pair_table.
Proof.
  eexists _, _. split; [vm_compute; reflexivity|].
  split; [reflexivity|]. split; [reflexivity|]. discriminate.
Qed.

(** C7 (as amended): [generate_car_matrix], [get_bus_indexes],
    [filter_routes], [multiply_matrix], [calculate_distance_matrix],
    [unroll_distance_matrix], [find_ids_within_ten_percentage_threshold]
    and [calculate_time_based_toll_rates] leave the caller's table exactly
    as it was.  [get_type_count], [time_check] and [calculate_toll_rate]
    assign columns on the caller's table (car_type; start_timestamp,
    end_timestamp, start_day, start_time; moto, car, rv, bus, truck):
    its index and every column of another name are unchanged. *)
Theorem calls_frame :
  (∀ df r df', generate_car_matrix df = Some (r, df') → df' = df)
  ∧ (∀ df r df', get_bus_indexes df = Some (r, df') → df' = df)
  ∧ (∀ df r df', filter_routes df = Some (r, df') → df' = df)
  ∧ (∀ M r M', multiply_matrix M = Some (r, M') → M' = M)
  ∧ (∀ df r df', calculate_distance_matrix df = Some (r, df') → df' = df)
  ∧ (∀ M r M', unroll_distance_matrix M = Some (r, M') → M' = M)
  ∧ (∀ df reference_id r df',
       find_ids_within_ten_percentage_threshold df reference_id = Some (r, df') →
       df' = df)
  ∧ (∀ today df r df',
       calculate_time_based_toll_rates today df = Some (r, df') → df' = df)
  ∧ (∀ df r df', get_type_count df = Some (r, df') →
       only_assigns ["car_type"] df df')
  ∧ (∀ to_datetime df r df', time_check to_datetime df = Some (r, df') →
       only_assigns ["start_timestamp"; "end_timestamp"; "start_day"; "start_time"]
         df df')
  ∧ (∀ df r df', calculate_toll_rate df = Some (r, df') →
       r = df' ∧ only_assigns ["moto"; "car"; "rv"; "bus"; "truck"] df df').
Proof.
  split_and!.
  - intros df r df' H. by apply generate_car_matrix_shape in H as [_ ?].
  - unfold get_bus_indexes. intros df r df' H. inv_binds. by simplify_eq.
  - unfold filter_routes. intros df r df' H. inv_binds. by simplify_eq.
  - unfold multiply_matrix. intros M r M' H. by simplify_eq.
  - unfold calculate_distance_matrix. intros df r df' H. inv_binds. by simplify_eq.
  - unfold unroll_distance_matrix. intros M r M' H.
    destruct (index_pairs (m_index M)); [done|]. inv_binds. by simplify_eq.
  - unfold find_ids_within_ten_percentage_threshold. intros df ref r df' H.
    inv_binds. by simplify_eq.
  - unfold calculate_time_based_toll_rates. intros today df r df' H.
    inv_binds. by simplify_eq.
  - apply get_type_count_frame.
  - apply time_check_frame.
  - apply calculate_toll_rate_frame.
Qed.
Lemma calls_frame_witness :
  (∃ r df', generate_car_matrix two_way_table = Some (r, df') ∧ df' = two_way_table)
  ∧ (∃ r df', get_bus_indexes bus_table = Some (r, df') ∧ df' = bus_table)
  ∧ (∃ r df', filter_routes route_table = Some (r, df') ∧ df' = route_table)
  ∧ (∃ r M', multiply_matrix small_matrix = Some (r, M') ∧ M' = small_matrix)
  ∧ (∃ r df', calculate_distance_matrix (chain_table 1 2 3) = Some (r, df')
              ∧ df' = chain_table 1 2 3)
  ∧ (∃ r M', unroll_distance_matrix small_matrix = Some (r, M') ∧ M' = small_matrix)
  ∧ (∃ r df', find_ids_within_ten_percentage_threshold tolerance_table 1 = Some (r, df')
              ∧ df' = tolerance_table)
  ∧ (∃ r df', calculate_time_based_toll_rates a_monday single_pair_table = Some (r, df')
              ∧ df' = single_pair_table)
  ∧ (∃ r df', get_type_count car_table_example = Some (r, df')
              ∧ only_assigns ["car_type"] car_table_example df')
  ∧ (∃ r df', time_check sample_to_datetime interval_table = Some (r, df')
              ∧ only_assigns
                  ["start_timestamp"; "end_timestamp"; "start_day"; "start_time"]
                  interval_table df')
  ∧ (∃ r df', calculate_toll_rate single_pair_table = Some (r, df')
              ∧ r = df'
              ∧ only_assigns ["moto"; "car"; "rv"; "bus"; "truck"] single_pair_table df').
Proof.
  destruct calls_frame as (H1 & H2 & H3 & H4 & H5 & H6 & H7 & H8 & H9 & H10 & H11).
  split_and!; eexists _, _.
  - split; [vm_compute; reflexivity|]. eapply H1. vm_compute. reflexivity.
  - split; [vm_compute; reflexivity|]. eapply H2. vm_compute. reflexivity.
  - split; [vm_compute; reflexivity|]. eapply H3. vm_compute. reflexivity.
  - split; [vm_compute; reflexivity|]. eapply H4. vm_compute. reflexivity.
  - split; [vm_compute; reflexivity|]. eapply H5. vm_compute. reflexivity.
  - split; [vm_compute; reflexivity|]. eapply H6. vm_compute. reflexivity.
  - split; [vm_compute; reflexivity|]. eapply (H7 tolerance_table 1). vm_compute. reflexivity.
  - split; [vm_compute; reflexivity|]. eapply (H8 a_monday). vm_compute. reflexivity.
  - split; [vm_compute; reflexivity|]. eapply H9. vm_compute. reflexivity.
  - split; [vm_compute; reflexivity|]. eapply (H10 sample_to_datetime). vm_compute. reflexivity.
  - split; [vm_compute; reflexivity|]. eapply H11. vm_compute. reflexivity.
Defined.
(** * Further properties *)

(** ** Time windows *)

Lemma group_head_start (ss es : list Z) (key : Z * Z) :
  key ∈ zip ss es →
  head (mask_list ((λ k, bool_decide (k = key)) <$> zip ss es) ss) = Some key.1.
Proof.
  revert es. induction ss as [|s ss IH]; intros [|e es] Hin;
    try (by apply elem_of_nil in Hin).
  cbn [zip zip_with] in *. rewrite fmap_cons, mask_list_cons.
  destruct (decide ((s, e) = key)) as [<-|Hne].
  - by rewrite bool_decide_eq_true_2.
  - rewrite bool_decide_eq_false_2 by done.
    apply elem_of_cons in Hin as [?|Hin]; [done|]. by apply IH.
Qed.

Lemma group_head_end (ss es : list Z) (key : Z * Z) :
  key ∈ zip ss es →
  head (mask_list ((λ k, bool_decide (k = key)) <$> zip ss es) es) = Some key.2.
Proof.
  revert es. induction ss as [|s ss IH]; intros [|e es] Hin;
    try (by apply elem_of_nil in Hin).
  cbn [zip zip_with] in *. rewrite fmap_cons, mask_list_cons.
  destruct (decide ((s, e) = key)) as [<-|Hne].
  - by rewrite bool_decide_eq_true_2.
  - rewrite bool_decide_eq_false_2 by done.
    apply elem_of_cons in Hin as [?|Hin]; [done|]. by apply IH.
Qed.

Lemma mask_list_group {A} (keys : list (Z * Z)) (values : list A) key :
  mask_list ((λ k, bool_decide (k = key)) <$> keys) values = group_values keys values key.
Proof.
  unfold group_values. rewrite mask_list_keys. f_equal.
  apply list_filter_iff. intros p.
  split; [apply bool_decide_unpack|apply bool_decide_pack].
Qed.

Lemma group_window_rows_eq today df ss es ds key :
  int_column df "id_start" = Some ss → int_column df "id_end" = Some es →
  num_column df "distance" = Some ds → key ∈ zip ss es →
  group_window_rows today (group_of (zip ss es) key df)
  = Some (window_rows today key.1 key.2 (mean (group_values (zip ss es) ds key))).
Proof.
  intros Hs He Hd Hin. unfold group_window_rows, group_of.
  rewrite !int_column_select, num_column_select, Hs, He, Hd.
  cbn [fmap option_fmap option_map mbind option_bind].
  rewrite group_head_start, group_head_end by done.
  cbn [mbind option_bind]. by rewrite mask_list_group.
Qed.

Lemma toll_rates_rows today df ss es ds :
  int_column df "id_start" = Some ss → int_column df "id_end" = Some es →
  num_column df "distance" = Some ds →
  calculate_time_based_toll_rates today df
  = Some (concat ((λ key, window_rows today key.1 key.2
                            (mean (group_values (zip ss es) ds key)))
                    <$> sorted_keys (zip ss es)), df).
Proof.
  intros Hs He Hd. unfold calculate_time_based_toll_rates.
  rewrite Hs, He. cbn [mbind option_bind].
  rewrite (mapM_fmap_Some _ (λ key, window_rows today key.1 key.2
                                      (mean (group_values (zip ss es) ds key)))).
  - done.
  - intros key Hkey. rewrite elem_of_sorted_keys in Hkey. cbn beta.
    apply (group_window_rows_eq today df ss es ds key); assumption.
Qed.

Lemma window_rows_length today s e a : length (window_rows today s e a) = 17%nat.
Proof. reflexivity. Qed.

Lemma window_rows_key today s e a w :
  w ∈ window_rows today s e a → (w_id_start w, w_id_end w) = (s, e).
Proof.
  unfold window_rows. intros H.
  apply list_elem_of_bind in H as (day & H & _).
  apply list_elem_of_bind in H as (win & H & _).
  apply list_elem_of_singleton in H. by subst.
Qed.

Lemma filter_window_rows_other today (key key' : Z * Z) a :
  key' ≠ key →
  filter (λ w, (w_id_start w, w_id_end w) = key) (window_rows today key'.1 key'.2 a) = [].
Proof.
  intros Hne. apply filter_none. intros w Hw%window_rows_key Hk.
  destruct key'. simpl in *. congruence.
Qed.

Lemma filter_all {A} (P : A → Prop) `{!∀ x, Decision (P x)} (l : list A) :
  (∀ x, x ∈ l → P x) → filter P l = l.
Proof.
  induction l as [|x l IH]; intros Hall; [done|].
  rewrite filter_cons_True by (apply Hall; by left).
  f_equal. apply IH. intros y Hy. apply Hall. by right.
Qed.

Lemma filter_window_rows_same today (key : Z * Z) a :
  filter (λ w, (w_id_start w, w_id_end w) = key) (window_rows today key.1 key.2 a)
  = window_rows today key.1 key.2 a.
Proof.
  apply filter_all. intros w Hw%window_rows_key. by destruct key.
Qed.

Lemma elem_of_concat {A} (x : A) (ls : list (list A)) :
  x ∈ concat ls ↔ ∃ l, x ∈ l ∧ l ∈ ls.
Proof.
  induction ls as [|l ls IH]; cbn [concat].
  - split; [by intros H%elem_of_nil|]. by intros (l & _ & H%elem_of_nil).
  - rewrite elem_of_app, IH. split.
    + intros [H|(l' & H1 & H2)]; [exists l; split; [done|by left]|].
      exists l'. split; [done|by right].
    + intros (l' & H1 & [->|H2]%elem_of_cons); [by left|right; eauto].
Qed.

Lemma filter_concat_windows today (f : Z * Z → number) keys key :
  NoDup keys → key ∈ keys →
  filter (λ w, (w_id_start w, w_id_end w) = key)
    (concat ((λ k, window_rows today k.1 k.2 (f k)) <$> keys))
  = window_rows today key.1 key.2 (f key).
Proof.
  induction 1 as [|k keys Hk Hnd IH]; intros Hin; [by apply elem_of_nil in Hin|].
  rewrite fmap_cons. cbn [concat]. rewrite filter_app.
  destruct (decide (k = key)) as [->|Hne].
  - rewrite filter_window_rows_same.
    assert (filter (λ w, (w_id_start w, w_id_end w) = key)
              (concat ((λ k, window_rows today k.1 k.2 (f k)) <$> keys)) = []) as ->.
    { apply filter_none. intros w Hw Hkey.
      apply elem_of_concat in Hw as (l & Hw & Hl).
      apply list_elem_of_fmap in Hl as (k' & -> & Hk').
      apply window_rows_key in Hw. destruct k'. simpl in *.
      apply Hk. congruence. }
    by rewrite app_nil_r.
  - rewrite filter_window_rows_other by done.
    apply elem_of_cons in Hin as [?|Hin]; [done|]. by apply IH.
Qed.

Lemma length_concat_windows today (f : Z * Z → number) keys :
  length (concat ((λ k, window_rows today k.1 k.2 (f k)) <$> keys))
  = (17 * length keys)%nat.
Proof.
  induction keys as [|k keys IH]; [done|].
  rewrite fmap_cons. cbn [concat]. rewrite length_app, IH, window_rows_length.
  cbn [length]. lia.
Qed.
Lemma weekday_of_ordinal_monday today :
  weekday_of_ordinal today = Monday → (today + 6) `mod` 7 = 0.
Proof.
  unfold weekday_of_ordinal. intros H.
  pose proof (Z.mod_pos_bound (today + 6) 7 ltac:(lia)) as Hb.
  destruct ((today + 6) `mod` 7) as [|p|p]; [done| |lia].
  destruct p as [[[|[]|]|[|[]|]|]|[[|[]|]|[|[]|]|]|]; try discriminate H; lia.
Qed.

Lemma weekday_of_ordinal_offset today k :
  (today + 6) `mod` 7 = 0 → 0 ≤ k < 7 →
  weekday_of_ordinal (today + k) =
    match k with
    | 0 => Monday | 1 => Tuesday | 2 => Wednesday | 3 => Thursday
    | 4 => Friday | 5 => Saturday | _ => Sunday
    end.
Proof.
  intros H0 Hk. unfold weekday_of_ordinal.
  assert ((today + k + 6) `mod` 7 = k) as -> by (Z.div_mod_to_equations; lia).
  done.
Qed.

Lemma window_rows_monday today s e a :
  weekday_of_ordinal today = Monday →
  window_rows today s e a
  = (λ dw : weekday * (time * time * Q),
       mk_window_row s e (weekday_name dw.1) dw.2.1.1 (weekday_name dw.1) dw.2.1.2
         (nscale dw.2.2 a)) <$> intended_week.
Proof.
  intros H%weekday_of_ordinal_monday.
  unfold window_rows, offset_day_name.
  change (seqZ 0 7) with [0; 1; 2; 3; 4; 5; 6]. cbn [mbind list_bind app].
  rewrite !(weekday_of_ordinal_offset today) by (done || lia).
  reflexivity.
Qed.




(** ** Completeness check *)

Global Instance pair_le_total : Total pair_le.
Proof. intros [a1 a2] [b1 b2]. unfold pair_le. simpl. lia. Qed.

Lemma apply_groups_keys keys df (f : DataFrame → option bool) series :
  apply_groups keys df f = Some series → series.*1 = sorted_keys keys.
Proof.
  unfold apply_groups. intros H. apply mapM_Some_1 in H.
  induction H as [|k [k' b] l series Hk _ IH]; [done|].
  destruct (f (group_of keys k df)) as [b'|]; [|done].
  injection Hk as <- <-. by rewrite fmap_cons, IH.
Qed.

Lemma time_check_keys to_datetime df ids ids2 series df' :
  int_column df "id" = Some ids → int_column df "id_2" = Some ids2 →
  time_check to_datetime df = Some (series, df') →
  series.*1 = sorted_keys (zip ids ids2).
Proof.
  intros Hid Hid2. unfold time_check. intros H. inv_binds.
  repeat match goal with
         | H : int_column _ _ = Some _ |- _ =>
             rewrite !int_column_set_ne in H by done
         end.
  simplify_eq. by eapply apply_groups_keys.
Qed.

(** A group can only be complete if it has a row for every second of the
    day and every row parses: a group with fewer than 86400 rows, or with
    a row whose start day and time do not parse, is reported false.  The
    series comes out ordered by key. *)
Theorem time_check_incomplete_groups to_datetime df ids ids2 sd st ed et :
  int_column df "id" = Some ids → int_column df "id_2" = Some ids2 →
  str_column df "startDay" = Some sd → str_column df "startTime" = Some st →
  str_column df "endDay" = Some ed → str_column df "endTime" = Some et →
  let keys := zip ids ids2 in
  let stamps := parse_column to_datetime sd st in
  ∃ series df', time_check to_datetime df = Some (series, df')
    ∧ Sorted pair_le series.*1
    ∧ ∀ key b, (key, b) ∈ series →
        (Z.of_nat (length (group_stamps keys stamps key)) < 86400 → b = false)
        ∧ (None ∈ group_stamps keys stamps key → b = false).
Proof.
  intros Hid Hid2 Hsd Hst Hed Het keys stamps.
  destruct (time_check_general to_datetime df ids ids2 sd st ed et)
    as (series & df' & Hcall & Hnd & Hkeys & Hb); try done.
  exists series, df'. split; [done|]. split.
  { rewrite (time_check_keys _ _ _ _ _ _ Hid Hid2 Hcall).
    apply Sorted_merge_sort. apply _. }
  intros key b Hin. destruct (Hb key b Hin) as [Hiff _]. cbn zeta in Hiff.
  split.
  - intros Hfew. destruct b; [|done]. exfalso.
    destruct (proj1 Hiff eq_refl) as [_ Htimes].
    assert (Some <$> all_day_times ⊆+ stamp_times (group_stamps keys stamps key)) as Hsub.
    { apply NoDup_submseteq.
      - apply (NoDup_fmap_2 _), NoDup_all_day_times.
      - intros t Ht. by apply Htimes. }
    apply submseteq_length in Hsub. unfold stamp_times in Hsub.
    rewrite !length_fmap in Hsub. pose proof all_day_times_count. lia.
  - intros Hnone. destruct b; [|done]. exfalso.
    destruct (proj1 Hiff eq_refl) as [Hdays _].
    assert (None ∈ Some <$> day_names) as Hbad.
    { apply Hdays. unfold stamp_days. apply list_elem_of_fmap. by exists None. }
    apply list_elem_of_fmap in Hbad as (d & Hd & _). done.
Qed.

Lemma time_check_incomplete_groups_witness :
  let keys := zip [7; 7; 8] [1; 1; -1] in
  let stamps :=
    parse_column sample_to_datetime
      [Some "Monday"; Some "Tuesday"; Some "Monday"]
      [Some "00:00:00"; Some "00:00:01"; Some "00:00:00"] in
  ∃ series df', time_check sample_to_datetime interval_table = Some (series, df')
    ∧ Sorted pair_le series.*1
    ∧ ∀ key b, (key, b) ∈ series →
        (Z.of_nat (length (group_stamps keys stamps key)) < 86400 → b = false)
        ∧ (None ∈ group_stamps keys stamps key → b = false).
Proof.
  apply (time_check_incomplete_groups sample_to_datetime interval_table
           [7; 7; 8] [1; 1; -1]
           [Some "Monday"; Some "Tuesday"; Some "Monday"]
           [Some "00:00:00"; Some "00:00:01"; Some "00:00:00"]
           [Some "Monday"; Some "Tuesday"; Some "Friday"]
           [Some "10:00:00"; Some "23:59:59"; Some "xx"]); reflexivity.
Defined.
(** ** Categorizer *)

Lemma count_label_cons l x xs :
  count_label l (x :: xs) =
    ((if decide (x = Some l) then 1 else 0) + count_label l xs)%nat.
Proof. unfold count_label. rewrite filter_cons. by case_decide. Qed.

Lemma cut_cases v :
  match v with
  | Num _ => cut car_edges car_labels v = Some "low"
             ∨ cut car_edges car_labels v = Some "medium"
             ∨ cut car_edges car_labels v = Some "high"
  | _ => cut car_edges car_labels v = None
  end.
Proof.
  destruct v as [q| |]; [|done..].
  pose proof (cut_bucket (Num q)) as H. inversion H; auto.
Qed.

Lemma cut_labels_total car :
  let tys := cut car_edges car_labels <$> car in
  (count_label "high" tys + count_label "low" tys + count_label "medium" tys)%nat
  = length (filter (λ v, is_finite v) car).
Proof.
  cbn zeta. induction car as [|v car IH]; [done|].
  rewrite fmap_cons, !count_label_cons, filter_cons.
  revert IH.
  generalize (count_label "high" (cut car_edges car_labels <$> car)).
  generalize (count_label "low" (cut car_edges car_labels <$> car)).
  generalize (count_label "medium" (cut car_edges car_labels <$> car)).
  intros m l h IH.
  pose proof (cut_cases v) as Hv.
  destruct v as [q| |]; cbn [is_finite].
  - rewrite (decide_True (P := Is_true true)) by done. cbn [length].
    destruct Hv as [->|[->| ->]]; repeat case_decide; simplify_eq; lia.
  - rewrite (decide_False (P := Is_true false)) by (by intros ?). rewrite Hv.
    repeat case_decide; simplify_eq; lia.
  - rewrite (decide_False (P := Is_true false)) by (by intros ?). rewrite Hv.
    repeat case_decide; simplify_eq; lia.
Qed.

Lemma assign_same {A} name (c : A) cs :
  assoc name cs = Some c → assign name c cs = cs.
Proof.
  induction cs as [|[n c'] cs IH]; [done|]. simpl.
  case_decide; intros Hc; simplify_eq; [done|]. by rewrite IH.
Qed.

Lemma assign_assign {A} name (c c' : A) cs :
  assign name c (assign name c' cs) = assign name c cs.
Proof.
  induction cs as [|[n c0] cs IH]; simpl.
  - by rewrite decide_True.
  - case_decide; simpl; [by rewrite decide_True|].
    rewrite decide_False by done. by rewrite IH.
Qed.


(** ** Toll rates *)

Lemma set_column_same df name c :
  get_column df name = Some c → set_column df name c = df.
Proof.
  destruct df as [idx cs]. unfold get_column, set_column. simpl.
  intros H. f_equal. by apply assign_same.
Qed.

Lemma num_column_FloatCol df name xs :
  get_column df name = Some (FloatCol xs) → num_column df name = Some xs.
Proof. unfold num_column. by intros ->. Qed.

Lemma calculate_toll_rate_eq df ds :
  num_column df "distance" = Some ds →
  calculate_toll_rate df =
    let df' :=
      set_column (set_column (set_column (set_column (set_column df
        "moto" (FloatCol (nscale (8 # 10) <$> ds)))
        "car" (FloatCol (nscale (12 # 10) <$> ds)))
        "rv" (FloatCol (nscale (15 # 10) <$> ds)))
        "bus" (FloatCol (nscale (22 # 10) <$> ds)))
        "truck" (FloatCol (nscale (36 # 10) <$> ds)) in
    Some (df', df').
Proof.
  intros Hd. unfold calculate_toll_rate, rate_coefficients, assign_rate.
  cbn [foldl mbind option_bind fst snd].
  rewrite Hd. cbn [mbind option_bind].
  rewrite num_column_set_ne, Hd by done. cbn [mbind option_bind].
  rewrite !num_column_set_ne, Hd by done. cbn [mbind option_bind].
  rewrite !num_column_set_ne, Hd by done. cbn [mbind option_bind].
  rewrite !num_column_set_ne, Hd by done. cbn [mbind option_bind].
  reflexivity.
Qed.


(** ** Matrix rescaling *)

Lemma m_at_map (f : number → number) M a b :
  m_at (mk_matrix (m_index M) (m_columns M)
          ((λ row : list number, f <$> row) <$> m_data M)) a b
  = f <$> m_at M a b.
Proof.
  unfold m_at. simpl.
  destruct (get_loc (m_index M) a) as [i|]; [simpl|done].
  destruct (get_loc (m_columns M) b) as [j|]; [simpl|done].
  rewrite list_lookup_fmap. destruct (m_data M !! i) as [row|]; [simpl|done].
  by rewrite list_lookup_fmap.
Qed.

Lemma round_half_even_close x :
  (x - (1 # 2) <= inject_Z (round_half_even x))%Q
  ∧ (inject_Z (round_half_even x) <= x + (1 # 2))%Q.
Proof.
  unfold round_half_even.
  pose proof (Qfloor_le x) as Hlo. pose proof (Qlt_floor x) as Hhi.
  rewrite inject_Z_plus in Hhi. change (inject_Z 1) with 1%Q in Hhi.
  destruct (Qle_bool (x - inject_Z (Qfloor x)) (1 # 2)) eqn:Hle.
  - apply Qle_bool_iff in Hle.
    destruct (Qeq_bool (x - inject_Z (Qfloor x)) (1 # 2)) eqn:Heq.
    + apply Qeq_bool_iff in Heq.
      destruct (Z.even (Qfloor x)); rewrite ?inject_Z_plus;
        change (inject_Z 1) with 1%Q; split; lra.
    + split; lra.
  - apply Qle_bool_false in Hle. rewrite inject_Z_plus.
    change (inject_Z 1) with 1%Q. split; lra.
Qed.

Lemma round1_close q :
  ∃ z : Z, round1 (Num q) = Num (inject_Z z / 10)
    ∧ (q - (1 # 20) <= inject_Z z / 10)%Q ∧ (inject_Z z / 10 <= q + (1 # 20))%Q.
Proof.
  exists (round_half_even (q * 10)). split; [done|].
  destruct (round_half_even_close (q * 10)) as [H1 H2].
  unfold Qdiv. change (/ 10)%Q with (1 # 10)%Q. split; lra.
Qed.


(** ** Unrolling *)

Lemma length_bind_const {A B} (f : A → list B) (l : list A) c :
  (∀ x, x ∈ l → length (f x) = c) → length (l ≫= f) = (length l * c)%nat.
Proof.
  induction l as [|x l IH]; intros H; [done|].
  cbn [mbind list_bind]. rewrite length_app. cbn [length].
  rewrite H by (by left). rewrite IH by (intros y Hy; apply H; by right). lia.
Qed.

Lemma length_pairs_from (s : Z) (l : list Z) :
  NoDup l →
  length (l ≫= λ e, if decide (s ≠ e) then [(s, e)] else [])
  = (length l - (if decide (s ∈ l) then 1 else 0))%nat.
Proof.
  induction 1 as [|x l Hx Hnd IH]; [by rewrite decide_False by apply not_elem_of_nil|].
  cbn [mbind list_bind]. rewrite length_app, IH. cbn [length].
  destruct (decide (s = x)) as [->|Hne].
  - rewrite (decide_False (P := x ≠ x)) by (by intros ?).
    rewrite (decide_False (P := x ∈ l)) by done.
    rewrite decide_True by (by left). simpl. lia.
  - rewrite (decide_True (P := s ≠ x)) by done.
    destruct (decide (s ∈ l)) as [Hin|Hin].
    + rewrite decide_True by (by right). simpl.
      assert (0 < length l)%nat; [|lia].
      destruct l; [by apply elem_of_nil in Hin|simpl; lia].
    + rewrite decide_False; [simpl; lia|].
      by intros [?|?]%elem_of_cons.
Qed.

Lemma length_index_pairs idx :
  NoDup idx → length (index_pairs idx) = (length idx * (length idx - 1))%nat.
Proof.
  intros Hnd. unfold index_pairs. apply length_bind_const.
  intros s Hs. rewrite length_pairs_from by done. by rewrite decide_True.
Qed.

(** For a matrix with [n] distinct index labels, all of them columns as
    well, [unroll_distance_matrix] returns [n (n - 1)] rows when [n] is at
    least 2.  With fewer than two index labels there is no pair, and the
    assignment of the distance column raises; an index label that is not
    a column raises as well. *)
Theorem unroll_distance_matrix_size :
  (∀ M, NoDup (m_index M) → m_total M →
     (∀ a, a ∈ m_index M → a ∈ m_columns M) →
     (2 ≤ length (m_index M))%nat →
     ∃ U rows, unroll_distance_matrix M = Some (U, M)
       ∧ edge_rows U = Some rows
       ∧ length rows = (length (m_index M) * (length (m_index M) - 1))%nat
       ∧ df_index U = range_index (length rows)
       ∧ df_wf U)
  ∧ (∀ M, NoDup (m_index M) → (length (m_index M) < 2)%nat →
       unroll_distance_matrix M = None)
  ∧ (∀ M a b, a ∈ m_index M → b ∈ m_index M → a ≠ b → b ∉ m_columns M →
       unroll_distance_matrix M = None).
Proof.
  split_and!.
  - intros M Hnd Htot Hsub Hlen.
    pose proof (length_index_pairs _ Hnd) as Hn.
    assert (index_pairs (m_index M) ≠ []) as Hne.
    { intros E. rewrite E in Hn. simpl in Hn. nia. }
    unfold unroll_distance_matrix.
    rewrite (mapM_fmap_Some _ (λ p, m_get M p.1 p.2)).
    2:{ intros [s e] Hp. apply elem_of_index_pairs in Hp as (Hs & He & _).
        simpl. apply m_get_total; auto. }
    destruct (index_pairs (m_index M)) as [|p ps] eqn:E; [done|].
    rewrite <- E in *. clear E. cbn [mbind option_bind].
    eexists _, _. split; [reflexivity|].
    rewrite edge_rows_frame, zip_pairs_fmap.
    split; [reflexivity|]. rewrite length_fmap.
    split; [done|]. split; [done|].
    unfold df_wf, range_index. cbn [df_columns df_index].
    repeat constructor; simpl; by rewrite !length_fmap, ?length_seq.
  - intros M Hnd Hlen. unfold unroll_distance_matrix.
    destruct (m_index M) as [|a [|b l]]; [done|..|simpl in Hlen; lia].
    unfold index_pairs. simpl. by rewrite decide_False by (by intros ?).
  - intros M a b Ha Hb Hab Hcol. unfold unroll_distance_matrix.
    assert ((a, b) ∈ index_pairs (m_index M)) as Hin by (by apply elem_of_index_pairs).
    destruct (index_pairs (m_index M)) as [|p ps] eqn:E; [done|].
    rewrite <- E in *. clear E.
    rewrite (proj2 (mapM_None _ _)); [done|].
    apply Exists_exists. exists (a, b). split; [done|]. simpl.
    unfold m_at. rewrite (get_loc_None _ _ Hcol).
    by destruct (get_loc (m_index M) a).
Qed.

Lemma unroll_distance_matrix_size_witness :
  (∃ U rows, unroll_distance_matrix small_matrix = Some (U, small_matrix)
     ∧ edge_rows U = Some rows
     ∧ length rows = (length [1; 2]%Z * (length [1; 2]%Z - 1))%nat
     ∧ df_index U = range_index (length rows)
     ∧ df_wf U)
  ∧ unroll_distance_matrix (mk_matrix [1] [1] [[Num 0]]) = None
  ∧ unroll_distance_matrix (mk_matrix [1; 2] [1] [[Num 0]; [Num 3]]) = None.
Proof.
  destruct unroll_distance_matrix_size as (H1 & H2 & H3).
  split_and!.
  - apply (H1 small_matrix).
    + refine (bool_decide_unpack _ _). vm_compute. exact I.
    + intros a b Ha Hb. simpl in Ha, Hb.
      rewrite !elem_of_cons, !elem_of_nil in Ha, Hb.
      destruct Ha as [->|[->|[]]], Hb as [->|[->|[]]]; vm_compute; eauto.
    + done.
    + simpl. lia.
  - apply (H2 (mk_matrix [1] [1] [[Num 0]])).
    + refine (bool_decide_unpack _ _). vm_compute. exact I.
    + simpl. lia.
  - apply (H3 (mk_matrix [1; 2] [1] [[Num 0]; [Num 3]]) 1 2); simpl.
    + by left.
    + right. by left.
    + discriminate.
    + rewrite elem_of_cons, elem_of_nil. intros [?|[]]. discriminate.
Defined.
(** ** Distances as a metric *)




(** ** The pivot in general *)

(** What [generate_car_matrix] does on any table: a repeated (id_1, id_2)
    pair raises; otherwise the index is the sorted distinct id_1 values
    and the columns are the sorted distinct id_2 values, followed by the
    id_1 values that never occur as id_2 (appended by the diagonal
    assignment).  The diagonal is 0, the cell of an input row holds its
    value (0 if that is NaN), a combination without input row under an
    id_2 column holds 0, and the other cells of an appended column hold
    NaN. *)
Theorem generate_car_matrix_layout :
  (∀ df rows, car_rows df = Some rows → ¬ NoDup rows.*1 →
     generate_car_matrix df = None)
  ∧ (∀ df rows, car_rows df = Some rows → NoDup rows.*1 →
       let idx := sorted_unique rows.*1.*1 in
       let cols := sorted_unique rows.*1.*2 in
       ∃ M, generate_car_matrix df = Some (M, df)
         ∧ m_index M = idx
         ∧ m_columns M = cols ++ filter (λ a, a ∉ cols) idx
         ∧ m_shape M
         ∧ (∀ a, a ∈ idx → m_at M a a = Some (Num 0))
         ∧ (∀ a b v, (a, b, v) ∈ rows → a ≠ b →
              m_at M a b = Some (if is_nan v then Num 0 else v))
         ∧ (∀ a b, a ∈ idx → b ∈ cols → a ≠ b → (a, b) ∉ rows.*1 →
              m_at M a b = Some (Num 0))
         ∧ (∀ a b, a ∈ idx → b ∈ idx → b ∉ cols → a ≠ b →
              m_at M a b = Some NaN)).
Proof.
  split; [exact generate_car_matrix_duplicate|].
  intros df rows Hrows Hnd idx cols.
  destruct (generate_car_matrix_cells df rows Hrows Hnd)
    as (M & HM & Hidx & Hcols & Htot & Hat).
  fold idx cols in Hidx, Hcols, Hat.
  assert (∀ b, b ∈ idx → b ∈ m_columns M) as Hic.
  { intros b Hb. rewrite Hcols, elem_of_app, list_elem_of_filter.
    destruct (decide (b ∈ cols)); tauto. }
  assert (∀ b, b ∈ cols → b ∈ m_columns M) as Hcc.
  { intros b Hb. rewrite Hcols, elem_of_app. by left. }
  exists M. split_and!; try done.
  - by apply (generate_car_matrix_shape df M df).
  - intros a Ha. rewrite Hat by auto. by rewrite decide_True.
  - intros a b v Hin Hab.
    assert (a ∈ idx) as Ha.
    { unfold idx. rewrite elem_of_sorted_unique. apply list_elem_of_fmap.
      exists (a, b). split; [done|]. apply list_elem_of_fmap. by exists (a, b, v). }
    assert (b ∈ cols) as Hb.
    { unfold cols. rewrite elem_of_sorted_unique. apply list_elem_of_fmap.
      exists (a, b). split; [done|]. apply list_elem_of_fmap. by exists (a, b, v). }
    rewrite Hat by auto. rewrite decide_False, decide_True by done.
    by rewrite (car_cell_present rows a b v).
  - intros a b Ha Hb Hab Hnone. rewrite Hat by auto.
    rewrite decide_False, decide_True by done. by rewrite car_cell_absent.
  - intros a b Ha Hb Hnc Hab. rewrite Hat by auto.
    by rewrite !decide_False.
Qed.

Lemma generate_car_matrix_layout_witness :
  generate_car_matrix
    (mk_df (range_index 2)
       [("id_1", IntCol [1; 1]); ("id_2", IntCol [2; 2]); ("car", IntCol [5; 6])])
  = None
  ∧ (let idx := sorted_unique [1; 3] in
     let cols := sorted_unique [2; 2] in
     ∃ M, generate_car_matrix one_sided_table = Some (M, one_sided_table)
       ∧ m_index M = idx
       ∧ m_columns M = cols ++ filter (λ a, a ∉ cols) idx
       ∧ m_shape M
       ∧ (∀ a, a ∈ idx → m_at M a a = Some (Num 0))
       ∧ (∀ a b v, (a, b, v) ∈ [(1, 2, Num 5); (3, 2, Num 6)] → a ≠ b →
            m_at M a b = Some (if is_nan v then Num 0 else v))
       ∧ (∀ a b, a ∈ idx → b ∈ cols → a ≠ b → (a, b) ∉ [(1, 2); (3, 2)] →
            m_at M a b = Some (Num 0))
       ∧ (∀ a b, a ∈ idx → b ∈ idx → b ∉ cols → a ≠ b →
            m_at M a b = Some NaN)).
Proof.
  destruct generate_car_matrix_layout as [H1 H2]. split.
  - apply (H1 _ [(1, 2, Num 5); (1, 2, Num 6)]); [reflexivity|].
    intros Hnd. simpl in Hnd. apply NoDup_cons in Hnd as [Hn _].
    apply Hn. by left.
  - apply (H2 one_sided_table [(1, 2, Num 5); (3, 2, Num 6)]); [reflexivity|].
    refine (bool_decide_unpack _ _). vm_compute. exact I.
Defined.
(** ** Threshold filters *)

Lemma StronglySorted_filter {A} (R : relation A) (P : A → Prop)
    `{!∀ x, Decision (P x)} (l : list A) :
  StronglySorted R l → StronglySorted R (filter P l).
Proof.
  induction 1 as [|x l Hl IH Hx]; [constructor|].
  rewrite filter_cons. case_decide; [|done].
  constructor; [done|]. apply Forall_forall. intros y Hy.
  apply list_elem_of_filter in Hy as [_ Hy].
  eapply Forall_forall in Hx; [exact Hx|done].
Qed.

Lemma StronglySorted_sorted_unique l : StronglySorted Z.le (sorted_unique l).
Proof. apply StronglySorted_merge_sort; apply _. Qed.

Lemma filter_fmap_fst {A B} (g : A → B) (P : A * B → Prop)
    `{!∀ x, Decision (P x)} (l : list A) :
  (filter P ((λ k, (k, g k)) <$> l)).*1 = filter (λ k, P (k, g k)) l.
Proof.
  induction l as [|k l IH]; [done|].
  rewrite fmap_cons, !filter_cons. case_decide; [rewrite fmap_cons|]; by rewrite IH.
Qed.

Lemma mean_all_nan xs : Forall (λ v, v = NaN) xs → mean xs = NaN.
Proof.
  intros H. unfold mean. rewrite filter_none; [done|].
  intros x Hx. eapply Forall_forall in H; [|exact Hx]. by subst.
Qed.




(** ** Tolerance filter without reference rows *)


(** ** Labels of the distance matrix *)

Lemma add_edge_back_nodes g u v w w' :
  g_nodes (add_edge (add_edge g u v w) v u w')
  = foldl (λ acc x, if decide (x ∈ acc) then acc else acc ++ [x]) (g_nodes g) [u; v].
Proof.
  rewrite (add_edge_g_nodes _ v u w' _ eq_refl).
  rewrite (add_edge_g_nodes g u v w _ eq_refl). cbn zeta. cbn [foldl].
  set (l1 := if decide (u ∈ g_nodes g) then g_nodes g else g_nodes g ++ [u]).
  set (l2 := if decide (v ∈ l1) then l1 else l1 ++ [v]).
  assert (u ∈ l1) as Hu.
  { unfold l1. case_decide; [done|]. apply elem_of_app. right. by left. }
  assert (v ∈ l2) as Hv.
  { unfold l2. case_decide; [done|]. apply elem_of_app. right. by left. }
  assert (u ∈ l2) as Hu2.
  { unfold l2. case_decide; [done|]. apply elem_of_app. by left. }
  by rewrite (decide_True (P := v ∈ l2)), (decide_True (P := u ∈ l2)).
Qed.

Lemma build_graph_first_seen rows :
  g_nodes (build_graph rows) = first_seen (endpoints rows).
Proof.
  unfold first_seen. induction rows as [|[[s e] w] rows IH] using rev_ind; [done|].
  rewrite build_graph_snoc, add_edge_back_nodes, IH. unfold endpoints.
  rewrite bind_app, foldl_app. reflexivity.
Qed.


